(** * quickstep: cli/simple_socket/SimpleSocketConnection.hpp

    A shallow embedding of the single-request socket transport of the
    quickstep command-line interface: the 64-bit byte-order helpers, the
    blocking receive loop, the request decoder run by the constructor, the
    response encoder and the destructor, followed by the properties of the
    wire format. *)

From Stdlib Require Import Strings.String Strings.Byte.
From Stdlib Require Import DecimalString DecimalZ.
From Stdlib Require Import ZArith List Lia Bool.
From Equations Require Import Equations.
Import ListNotations.

Local Open Scope Z_scope.

(** ** Bytes and object representations *)

Abbreviation bytestring := (list byte) (only parsing).

Definition Z_of_byte (b : byte) : Z := Z.of_N (Byte.to_N b).

Definition byte_of_Z (x : Z) : byte :=
  match Byte.of_N (Z.to_N (x mod 256)) with
  | Some b => b
  | None => x00
  end.

(** [len] is the [std::size_t] length of a byte string. *)
Definition len {A : Type} (l : list A) : Z := Z.of_nat (length l).

(** The [n] low-order bytes of [x], least significant first. *)
Fixpoint le_bytes (n : nat) (x : Z)  : bytestring :=
  match n with
  | O => []
  | S n' => byte_of_Z x :: le_bytes n' (x / 256)
  end.

(** The unsigned integer whose least-significant-first bytes are [bs]. *)
Fixpoint le_value (bs  : bytestring) : Z :=
  match bs with
  | [] => 0
  | b :: bs' => Z_of_byte b + 256 * le_value bs'
  end.

(** The most-significant-first (network order) encoding and its value. *)
Definition be_bytes (n : nat) (x : Z)  : bytestring := rev (le_bytes n x).
Definition be_value (bs  : bytestring) : Z := le_value (rev bs).

(** Byte order of the machine the code is compiled for. *)
Inductive endianness : Set := LittleEndian | BigEndian.

(** [store host n x] is the object representation of the [n]-byte unsigned
    integer [x] in the memory of a [host] machine, which is what
    [write(fd, &x, n)] puts on the wire; [load host bs] is the integer a
    [host] machine sees in an object whose bytes are [bs], which is what
    [read(fd, &x, n)] and [*ptr] give. *)
Definition store (host : endianness) (n : nat) (x : Z)  : bytestring :=
  match host with
  | LittleEndian => le_bytes n x
  | BigEndian => be_bytes n x
  end.

Definition load (host : endianness) (bs  : bytestring) : Z :=
  match host with
  | LittleEndian => le_value bs
  | BigEndian => be_value bs
  end.

(** [static_cast<std::uint32_t>] and arithmetic on [std::uint64_t]. *)
Definition uint32 (x : Z) : Z := x mod 2 ^ 32.
Definition uint64 (x : Z) : Z := x mod 2 ^ 64.

(** The classic 32-bit byte swap, with masks and shifts. *)
Definition bswap32 (x : Z) : Z :=
  Z.lor (Z.lor (Z.shiftl (Z.land x 255) 24)
               (Z.shiftl (Z.land (Z.shiftr x 8) 255) 16))
        (Z.lor (Z.shiftl (Z.land (Z.shiftr x 16) 255) 8)
               (Z.land (Z.shiftr x 24) 255)).

(** [htonl] and [ntohl] of <arpa/inet.h>: the identity on a big-endian
    host, the byte swap on a little-endian one. *)
Definition htonl (host : endianness) (x : Z) : Z :=
  match host with
  | BigEndian => uint32 x
  | LittleEndian => bswap32 (uint32 x)
  end.

Definition ntohl (host : endianness) (x : Z) : Z := htonl host x.

Section ByteOrderHelpers.
Variable host : endianness.

(** [SimpleSocketConnection::Ntohll] *)
Definition Ntohll (code : Z) : Z :=
  let lo32 := uint32 code in
  let hi32 := uint32 (Z.shiftr code 32) in
  let value := Z.lor (Z.shiftl (ntohl host lo32) 32) (ntohl host hi32) in
  value.

(** [SimpleSocketConnection::Htonll] *)
Definition Htonll (code : Z) : Z :=
  let lo32 := uint32 code in
  let hi32 := uint32 (Z.shiftr code 32) in
  Z.lor (Z.shiftl (htonl host lo32) 32) (htonl host hi32).
End ByteOrderHelpers.

(** ** Outcomes of a member function

    A member function either returns, throws a C++ exception, terminates
    the process through a failed glog [CHECK], or touches memory outside
    an allocated object (undefined behaviour, kept as an outcome of its
    own).  The first two carry the state of the object and of its socket
    at that point. *)

Inductive exception : Set :=
| runtime_error (what_arg : string)
| length_error (what_arg : string)
| bad_alloc.

Definition what (e : exception) : string :=
  match e with
  | runtime_error s => s
  | length_error s => s
  | bad_alloc => "std::bad_alloc"
  end.

Inductive outcome (St A : Type) : Type :=
| Returns (a : A) (s : St)
| Throws (e : exception) (s : St)
| Aborts
| OutOfBounds.

Arguments Returns {St A} a s.
Arguments Throws {St A} e s.
Arguments Aborts {St A}.
Arguments OutOfBounds {St A}.

Definition M (St A : Type) : Type := St -> outcome St A.

Definition ret {St A} (a : A) : M St A := fun s => Returns a s.

Definition bind {St A B} (m : M St A) (k : A -> M St B) : M St B :=
  fun s =>
    match m s with
    | Returns a s' => k a s'
    | Throws e s' => Throws e s'
    | Aborts => Aborts
    | OutOfBounds => OutOfBounds
    end.

Definition throw {St A} (e : exception) : M St A := fun s => Throws e s.
Definition check_failed {St A} : M St A := fun _ => Aborts.
Definition out_of_bounds {St A} : M St A := fun _ => OutOfBounds.
Definition gets {St A} (f : St -> A) : M St A := fun s => Returns (f s) s.
Definition modify {St} (f : St -> St) : M St unit := fun s => Returns tt (f s).

Declare Scope cxx_scope.
Delimit Scope cxx_scope with cxx.
Notation "x <- m ;; k" := (bind m (fun x => k))
  (at level 61, m at next level, right associativity) : cxx_scope.
Notation "' pat <- m ;; k" := (bind m (fun pat => k))
  (at level 61, pat pattern, m at next level, right associativity) : cxx_scope.
Notation "m ;; k" := (bind m (fun _ => k))
  (at level 61, right associativity) : cxx_scope.
Local Open Scope cxx_scope.

(** [try { body } catch (const std::exception &e) { handler }] *)
Definition try_catch {St} (body : M St unit) (handler : exception -> M St unit)
  : M St unit :=
  fun s =>
    match body s with
    | Throws e s' => handler e s'
    | r => r
    end.

(** [for (const auto &it : l) body] *)
Fixpoint for_each {St A} (l : list A) (body : A -> M St unit) : M St unit :=
  match l with
  | [] => ret tt
  | it :: l' => body it ;; for_each l' body
  end.

(** [count] more rounds of [for (...; ++i) body], the loop's local
    variables [locals] being handed from one round to the next. *)
Fixpoint for_rounds {St L} (count : nat) (i : Z) (body : Z -> L -> M St L)
  (locals : L) : M St L :=
  match count with
  | O => ret locals
  | S count' =>
      locals' <- body i locals ;;
      for_rounds count' (i + 1) body locals'
  end.

(** [for (std::size_t i = 0; i < n; ++i) body] *)
Definition for_lt {St L} (n : Z) (body : Z -> L -> M St L) (locals : L)
  : M St L :=
  for_rounds (Z.to_nat n) 0 body locals.

(** ** SimpleSocketContent *)

(** Modelled from the spec: cli/simple_socket/SimpleSocketContent.hpp is not
    part of the sources.  A [StringPiece] is a (pointer, length) pair; it
    stands here for the bytes it designates. *)
Abbreviation StringPiece := (list byte) (only parsing).

(** Modelled from the spec: the Record of section 3, a mapping from keys to
    byte strings with unique keys that keeps the order of insertion. *)
Definition SimpleSocketContent : Type := list (bytestring * StringPiece).

(** Modelled from the spec: a Record is created empty. *)
Definition empty_content : SimpleSocketContent := [].

(** Modelled from the spec: [setField(key, value)] "stores/overwrites the
    value under key", the last write winning on a duplicate key. *)
Fixpoint setField (key : bytestring) (value : StringPiece)
  (c : SimpleSocketContent) : SimpleSocketContent :=
  match c with
  | [] => [(key, value)]
  | (k, v) :: c' =>
      if list_eq_dec Byte.byte_eq_dec key k
      then (key, value) :: c'
      else (k, v) :: setField key value c'
  end.

(** Modelled from the spec: [fields()] is the sequence of (key, value)
    pairs in a fixed order, the same for decoding and encoding. *)
Definition fields (c : SimpleSocketContent) : list (bytestring * StringPiece) :=
  c.

(** ** The socket behind the descriptor *)

(** What the next [read] on the socket finds: bytes that have arrived, or
    an error.  No arrival left means that the peer has closed. *)
Inductive arrival : Type :=
| Segment (data : bytestring)
| Failure.

Record socket : Type := mk_socket {
  incoming : list arrival;
  outgoing : bytestring;
  shut_down : bool;
  closed : bool
}.

(** [read(fd, dst, bytes)]: the byte count returned (0 at end of stream,
    -1 on error), the bytes put at [dst], and the socket afterwards. *)
Definition sys_read (fd : socket) (bytes : Z) : Z * bytestring * socket :=
  match incoming fd with
  | [] => (0, [], fd)
  | Failure :: rest =>
      (-1, [], mk_socket rest (outgoing fd) (shut_down fd) (closed fd))
  | Segment data :: rest =>
      let n := Z.min bytes (len data) in
      let left :=
        if n <? len data then Segment (skipn (Z.to_nat n) data) :: rest
        else rest in
      (n, firstn (Z.to_nat n) data,
       mk_socket left (outgoing fd) (shut_down fd) (closed fd))
  end.

(** [write(fd, src, n)], which the caller never checks: the [n] bytes at
    [src] go out. *)
Definition sys_write (fd : socket) (src : bytestring) (n : Z) : socket :=
  mk_socket (incoming fd) (outgoing fd ++ firstn (Z.to_nat n) src)
            (shut_down fd) (closed fd).

Definition sys_shutdown (fd : socket) : socket :=
  mk_socket (incoming fd) (outgoing fd) true (closed fd).

Definition sys_close (fd : socket) : socket :=
  mk_socket (incoming fd) (outgoing fd) (shut_down fd) true.

(** ** SimpleSocketConnection *)

(** A block of the heap: [uninitialised n] is a block of [n] bytes that
    has not been filled to its end, whose contents are therefore not
    known; [holding data] is a block filled with [data]. *)
Inductive block : Type :=
| uninitialised (size : Z)
| holding (data : bytestring).

(** The data members; [socket_fd_] stands for the socket the descriptor
    names, [request_data_ = None] for the null pointer, and
    [request_data_length_ = None] for the member before its first
    assignment, which the constructor does not initialise. *)
Record SimpleSocketConnection : Type := mk_connection {
  socket_fd_ : socket;
  request_data_length_ : option Z;
  request_data_ : option block;
  request_ : SimpleSocketContent;
  error_message_ : option string
}.

Definition with_socket (f : socket -> socket) (c : SimpleSocketConnection)
  : SimpleSocketConnection :=
  mk_connection (f (socket_fd_ c)) (request_data_length_ c) (request_data_ c)
                (request_ c) (error_message_ c).

Definition set_request_data_length_ (n : Z) (c : SimpleSocketConnection)
  : SimpleSocketConnection :=
  mk_connection (socket_fd_ c) (Some n) (request_data_ c) (request_ c)
                (error_message_ c).

Definition set_request_data_ (p : option block)
  (c : SimpleSocketConnection) : SimpleSocketConnection :=
  mk_connection (socket_fd_ c) (request_data_length_ c) p (request_ c)
                (error_message_ c).

Definition set_request_ (r : SimpleSocketContent)
  (c : SimpleSocketConnection) : SimpleSocketConnection :=
  mk_connection (socket_fd_ c) (request_data_length_ c) (request_data_ c) r
                (error_message_ c).

Definition set_error_message_ (m : option string)
  (c : SimpleSocketConnection) : SimpleSocketConnection :=
  mk_connection (socket_fd_ c) (request_data_length_ c) (request_data_ c)
                (request_ c) m.

Definition kMaxRequestDataLength : Z := 0x10000000.

(** [std::to_string] of an unsigned integer. *)
Definition to_string (n : Z) : string :=
  NilZero.string_of_uint (N.to_uint (Z.to_N n)).

Definition overflow_error (n : Z) : exception :=
  runtime_error ("Overflow request data length = " ++ to_string n).

Definition receive_error : exception :=
  runtime_error ("Error receiving data from socket connection"
                 ++ " at SimpleSocketConnection::receiveData()").

(** [std::malloc(n)], taken to succeed: a block of [n] bytes of unknown
    contents. *)
Definition malloc (n : Z) : block := uninitialised n.

(** [std::string::max_size()].  The standard leaves the value to the
    library; this is the one of libstdc++, [PTRDIFF_MAX - 1]. *)
Definition string_max_size : Z := 2 ^ 63 - 2.

(** What [std::string(s, n)] throws when [n] is above [max_size()], with
    the message of libstdc++. *)
Definition string_too_long : exception :=
  length_error "basic_string::_M_create".

(** The bytes of [[p, p + n)] in the block [buf]; nothing when the range
    is not inside the block.  A range of no bytes touches nothing. *)
Definition slice (buf : bytestring) (p n : Z) : option bytestring :=
  if n =? 0 then Some []
  else if (0 <=? p) && (0 <=? n) && (p + n <=? len buf)
       then Some (firstn (Z.to_nat n) (skipn (Z.to_nat p) buf))
       else None.

(** The bytes that a (pointer, length) pair designates in the block
    [buf], the pointer being the offset [p]: those of [[p, p + n)] that
    the block has.  Nothing is read. *)
Definition piece (buf : bytestring) (p n : Z) : list byte :=
  firstn (Z.to_nat (Z.min n (len buf)))
         (skipn (Z.to_nat (Z.min p (len buf))) buf).

Definition inspect {A : Type} (a : A) : {b : A | a = b} := exist _ a eq_refl.

Section Connection.
Variable host : endianness.

(** The environment's answer to a request for a large number of bytes
    from the heap. *)
Variable allocates : Z -> bool.

Let Conn := SimpleSocketConnection.

(** [read(socket_fd_, dst, bytes)] *)
Definition read (bytes : Z) (c : Conn) : Z * bytestring * Conn :=
  let '(bytes_read, got, fd) := sys_read (socket_fd_ c) bytes in
  (bytes_read, got, with_socket (fun _ => fd) c).

(** [write(socket_fd_, src, n)] *)
Definition write (src : bytestring) (n : Z) : M Conn unit :=
  modify (with_socket (fun fd => sys_write fd src n)).

(** [SimpleSocketConnection::receiveData]; the result is what the loop
    has put at [dst], [bytes] bytes in all. *)
Equations? receiveData (bytes : Z) (c : Conn) : outcome Conn bytestring
  by wf (Z.to_nat bytes) lt :=
receiveData bytes c with Z.eq_dec bytes 0 := {
  | left _ => Returns [] c
  | right _ with inspect (read bytes c) := {
      | exist _ (bytes_read, got, c1) _ with Z_le_gt_dec bytes_read 0 := {
          | left _ => Throws receive_error c1
          | right _ with receiveData (uint64 (bytes - bytes_read)) c1 := {
              | Returns rest c2 => Returns (got ++ rest) c2
              | Throws e c2 => Throws e c2
              | Aborts => Aborts
              | OutOfBounds => OutOfBounds } } } }.
Proof.
  unfold read, sys_read in *.
  assert (Hle : bytes_read <= Z.max 0 bytes).
  { destruct (incoming (socket_fd_ c)) as [|[seg|] rest];
      match goal with H : _ = (bytes_read, _, _) |- _ => inversion H end;
      lia. }
  unfold uint64.
  pose proof (Z.mod_pos_bound (bytes - bytes_read) (2 ^ 64) ltac:(lia)).
  pose proof (Z.mod_le (bytes - bytes_read) (2 ^ 64) ltac:(lia) ltac:(lia)).
  lia.
Defined.

(** [SimpleSocketConnection::receiveUInt64] *)
Definition receiveUInt64 : M Conn Z :=
  code <- receiveData 8 ;;
  ret (Ntohll host (load host code)).

(** [SimpleSocketConnection::writeUInt64] *)
Definition writeUInt64 (value : Z) : M Conn unit :=
  let code := Htonll host value in
  write (store host 8 code) 8.

(** [*size_ptr++] on the block [buf], [size_ptr] being a byte offset
    into it. *)
Definition next_uint64 (buf : bytestring) (size_ptr : Z) : M Conn (Z * Z) :=
  if (0 <=? size_ptr) && (size_ptr + 8 <=? len buf)
  then ret (load host (firstn 8 (skipn (Z.to_nat size_ptr) buf)),
            size_ptr + 8)
  else out_of_bounds.

(** The first loop of [receiveRequest]: the size table. *)
Definition read_field_sizes (buf : bytestring) (num_fields : Z)
  (size_ptr : Z) : M Conn (list (Z * Z) * Z) :=
  for_lt num_fields
    (fun _ '(field_sizes, size_ptr) =>
       '(code, size_ptr) <- next_uint64 buf size_ptr ;;
       let key_size := Ntohll host code in
       '(code, size_ptr) <- next_uint64 buf size_ptr ;;
       let value_size := Ntohll host code in
       ret (field_sizes ++ [(key_size, value_size)], size_ptr))
    ([], size_ptr).

(** What [std::string(s, n)] throws before it copies anything, if it
    throws: [std::length_error] when [n] is above [max_size()], and
    [std::bad_alloc] when the [n + 1] bytes for the copy are not to be
    had.  Whether they are is for the environment to say; a request for
    less than [kMaxRequestDataLength] bytes is taken to succeed, as that
    for the block is. *)
Definition string_refused (n : Z) : option exception :=
  if string_max_size <? n then Some string_too_long
  else if (kMaxRequestDataLength <=? n) && negb (allocates (n + 1))
       then Some bad_alloc
       else None.

(** Modelled from the spec: the call
    [request_.setField(key, key_size, value, value_size)], whose callee
    is in the missing SimpleSocketContent.hpp.  As [sendResponse] shows, a
    Record keeps each key as a [std::string] and each value as a
    (pointer, length) pair.  So the key is copied: [std::string(key,
    key_size)] throws as said above, and otherwise reads the [key_size]
    bytes at [key], an access outside the block when they are not all
    inside it.  The value is only pointed to; [key] and [value] are
    offsets into the block [buf]. *)
Definition set_request_field (buf : bytestring)
  (key key_size value value_size : Z) : M Conn unit :=
  match string_refused key_size with
  | Some e => throw e
  | None =>
      match slice buf key key_size with
      | Some k =>
          modify (fun c =>
                    set_request_
                      (setField k (piece buf value value_size) (request_ c))
                      c)
      | None => out_of_bounds
      end
  end.

(** The second loop of [receiveRequest]: the fields.  [data_ptr] is an
    offset into the block; addresses have 64 bits, so that offsets are
    taken modulo 2^64. *)
Definition populate_fields (buf : bytestring) (num_fields : Z)
  (field_sizes : list (Z * Z)) (data_ptr : Z) : M Conn Z :=
  for_lt num_fields
    (fun i data_ptr =>
       let fs := nth (Z.to_nat i) field_sizes (0, 0) in
       let key_size := fst fs in
       let value_size := snd fs in
       let key := data_ptr in
       let value := uint64 (data_ptr + key_size) in
       set_request_field buf key key_size value value_size ;;
       ret (uint64 (data_ptr + uint64 (key_size + value_size))))
    data_ptr.

(** The part of [receiveRequest] under its comment "Decode request
    data.", down to the closing [CHECK_EQ]; [data] is the block at
    [request_data_] and [n] is [request_data_length_]. *)
Definition decode_request_data (data : bytestring) (n : Z) : M Conn unit :=
  '(code, size_ptr) <- next_uint64 data 0 ;;
  let num_fields := Ntohll host code in
  '(field_sizes, size_ptr) <- read_field_sizes data num_fields size_ptr ;;
  data_ptr <- populate_fields data num_fields field_sizes size_ptr ;;
  if 0 + n =? data_ptr then ret tt else check_failed.

(** [SimpleSocketConnection::receiveRequest] *)
Definition receiveRequest : M Conn unit :=
  n <- receiveUInt64 ;;
  modify (set_request_data_length_ n) ;;
  (if kMaxRequestDataLength <=? n
   then throw (overflow_error n)
   else ret tt) ;;
  modify (set_request_data_ (Some (malloc n))) ;;
  data <- receiveData n ;;
  modify (set_request_data_ (Some (holding data))) ;;
  decode_request_data data n.

(** The constructor, from the members' initial values on. *)
Definition construct (socket_fd : socket) : outcome Conn unit :=
  try_catch receiveRequest
    (fun e => modify (set_error_message_ (Some (what e))))
    (mk_connection socket_fd None None empty_content None).

(** [SimpleSocketConnection::sendResponse(const SimpleSocketContent &)] *)
Definition sendResponse (response : SimpleSocketContent) : M Conn unit :=
  (* Calculate field sizes. *)
  let '(total_size, field_ptrs, field_sizes) :=
    fold_left
      (fun '(total_size, field_ptrs, field_sizes) it =>
         let key := fst it in
         let value := snd it in
         (uint64 (total_size + uint64 (len key + len value)),
          field_ptrs ++ [(key, value)],
          field_sizes ++ [(len key, len value)]))
      (fields response) (0, [], []) in
  let num_fields := len field_ptrs in
  let total_size :=
    uint64 (total_size + uint64 (8 * (1 + 2 * num_fields))) in
  writeUInt64 total_size ;;
  writeUInt64 num_fields ;;
  for_each field_sizes
    (fun it => writeUInt64 (fst it) ;; writeUInt64 (snd it)) ;;
  for_lt num_fields
    (fun i _ =>
       let fp := nth (Z.to_nat i) field_ptrs ([], []) in
       let fs := nth (Z.to_nat i) field_sizes (0, 0) in
       write (fst fp) (fst fs) ;;
       write (snd fp) (snd fs))
    tt.

(** [sendResponse(const std::string &, const std::string &)] *)
Definition sendResponse_strings (stdout_str stderr_str : bytestring)
  : M Conn unit :=
  let response := empty_content in
  let response :=
    setField (list_byte_of_string "stdout") stdout_str response in
  let response :=
    setField (list_byte_of_string "stderr") stderr_str response in
  sendResponse response.
End Connection.

(** [SimpleSocketConnection::~SimpleSocketConnection] *)
Definition destroy (c : SimpleSocketConnection) : SimpleSocketConnection :=
  match request_data_ c with
  | Some _ =>
      let c := set_request_data_ None c in
      let c := with_socket sys_shutdown c in
      with_socket sys_close c
  | None => c
  end.

Definition getRequest (c : SimpleSocketConnection) : SimpleSocketContent :=
  request_ c.

Definition hasError (c : SimpleSocketConnection) : bool :=
  match error_message_ c with Some _ => true | None => false end.

(** [getErrorMessage] is only to be called when [hasError()] holds. *)
Definition getErrorMessage (c : SimpleSocketConnection) : string :=
  match error_message_ c with Some m => m | None => EmptyString end.

(** ** Vocabulary of the properties *)

(** The bytes that successive reads obtain from a socket before one of
    them returns zero or less. *)
Fixpoint readable (arrivals : list arrival) : bytestring :=
  match arrivals with
  | Segment (b :: data) :: rest => (b :: data) ++ readable rest
  | _ => []
  end.

Definition set_incoming (arrivals : list arrival)
  (c : SimpleSocketConnection) : SimpleSocketConnection :=
  with_socket
    (fun fd => mk_socket arrivals (outgoing fd) (shut_down fd) (closed fd)) c.

Definition send (out : bytestring) (c : SimpleSocketConnection)
  : SimpleSocketConnection :=
  with_socket
    (fun fd => mk_socket (incoming fd) (outgoing fd ++ out) (shut_down fd)
                         (closed fd)) c.

(** A connection as the constructor finds it. *)
Definition fresh (socket_fd : socket) : SimpleSocketConnection :=
  mk_connection socket_fd None None empty_content None.

(** The eight bytes [writeUInt64] sends for [value] from a [host]
    machine, and the value [receiveUInt64] makes of eight bytes. *)
Definition wire64 (host : endianness) (value : Z) : bytestring :=
  store host 8 (Htonll host value).

Definition unwire64 (host : endianness) (code : bytestring) : Z :=
  Ntohll host (load host code).

Definition sum_sizes (sizes : list (Z * Z)) : Z :=
  fold_right (fun fs acc => fst fs + snd fs + acc) 0 sizes.

Definition sizes_of (fs : list (bytestring * StringPiece)) : list (Z * Z) :=
  map (fun it => (len (fst it), len (snd it))) fs.

(** The length announced in front of a Record's message. *)
Definition total_length (r : SimpleSocketContent) : Z :=
  8 + 16 * len (fields r) + sum_sizes (sizes_of (fields r)).

Definition size_table (host : endianness) (sizes : list (Z * Z))
  : bytestring :=
  flat_map (fun fs => wire64 host (fst fs) ++ wire64 host (snd fs)) sizes.

Definition payload (fs : list (bytestring * StringPiece)) : bytestring :=
  flat_map (fun it => fst it ++ snd it) fs.

(** The body of a Record's message, and the whole message. *)
Definition body (host : endianness) (r : SimpleSocketContent) : bytestring :=
  wire64 host (len (fields r))
  ++ size_table host (sizes_of (fields r))
  ++ payload (fields r).

Definition frame (host : endianness) (r : SimpleSocketContent) : bytestring :=
  wire64 host (total_length r) ++ body host r.

(** What a block announces about itself: its field count, when the block
    has room for one; its size table, when it has room for that many
    entries; and the end of the payload that the table implies. *)
Definition uint64_at (host : endianness) (buf : bytestring) (p : Z) : Z :=
  unwire64 host (firstn 8 (skipn (Z.to_nat p) buf)).

Definition announced_fields (host : endianness) (buf : bytestring)
  : option Z :=
  if 8 <=? len buf then Some (uint64_at host buf 0) else None.

Definition announced_sizes (host : endianness) (buf : bytestring)
  : option (list (Z * Z)) :=
  match announced_fields host buf with
  | Some n =>
      if 8 + 16 * n <=? len buf
      then Some (map (fun i => (uint64_at host buf (8 + 16 * Z.of_nat i),
                                uint64_at host buf (16 + 16 * Z.of_nat i)))
                     (seq 0 (Z.to_nat n)))
      else None
  | None => None
  end.

Definition announced_end (host : endianness) (buf : bytestring) : option Z :=
  match announced_sizes host buf with
  | Some sizes => Some (8 + 16 * len sizes + sum_sizes sizes)
  | None => None
  end.

(** The precondition of the decoder: the block holds all that it
    announces. *)
Definition fits (host : endianness) (buf : bytestring) : bool :=
  match announced_end host buf with
  | Some e => e <=? len buf
  | None => false
  end.

(** What the second loop of the decoder makes of a size table, from
    offset [p] on: all fields cut, with the offset reached; a key outside
    the block; or a key that [std::string] refuses, after the fields cut
    before it. *)
Inductive cutting : Type :=
| cut_all (kvs : list (bytestring * StringPiece)) (data_ptr : Z)
| key_outside
| key_refused (e : exception) (kvs : list (bytestring * StringPiece)).

Definition cut_more (kv : bytestring * StringPiece) (r : cutting) : cutting :=
  match r with
  | cut_all kvs p => cut_all (kv :: kvs) p
  | key_outside => key_outside
  | key_refused e kvs => key_refused e (kv :: kvs)
  end.

Fixpoint cut_fields (allocates : Z -> bool) (buf : bytestring) (p : Z)
  (sizes : list (Z * Z)) : cutting :=
  match sizes with
  | [] => cut_all [] p
  | (key_size, value_size) :: sizes' =>
      match string_refused allocates key_size with
      | Some e => key_refused e []
      | None =>
          match slice buf p key_size with
          | Some k =>
              cut_more (k, piece buf (uint64 (p + key_size)) value_size)
                (cut_fields allocates buf
                   (uint64 (p + uint64 (key_size + value_size))) sizes')
          | None => key_outside
          end
      end
  end.

(** Every key of the size table is one that [std::string] does not
    refuse and, unless empty, lies inside the block, the fields following
    one another from offset [p] on (modulo 2^64).  The values are not
    looked at. *)
Fixpoint keys_inside (allocates : Z -> bool) (buf : bytestring) (p : Z)
  (sizes : list (Z * Z)) : bool :=
  match sizes with
  | [] => true
  | (key_size, value_size) :: sizes' =>
      match string_refused allocates key_size with
      | Some _ => false
      | None =>
          ((key_size =? 0) || (p + key_size <=? len buf))
          && keys_inside allocates buf (uint64 (p + key_size + value_size))
                         sizes'
      end
  end.

(** Some key that is copied does not lie inside the block: a key of the
    size table, not refused by [std::string] as no key before it is, that
    is not empty and not inside the block. *)
Fixpoint key_read_outside (allocates : Z -> bool) (buf : bytestring) (p : Z)
  (sizes : list (Z * Z)) : bool :=
  match sizes with
  | [] => false
  | (key_size, value_size) :: sizes' =>
      match string_refused allocates key_size with
      | Some _ => false
      | None =>
          if (key_size =? 0) || (p + key_size <=? len buf)
          then key_read_outside allocates buf
                 (uint64 (p + key_size + value_size)) sizes'
          else true
      end
  end.

(** The decoder reads outside the block: the block has no room for the
    field count or the announced size table, or a copied key is not
    inside it. *)
Definition reads_outside (host : endianness) (allocates : Z -> bool)
  (buf : bytestring) : bool :=
  match announced_sizes host buf with
  | Some sizes => key_read_outside allocates buf (8 + 16 * len sizes) sizes
  | None => true
  end.

(** The fields of a list set one after the other. *)
Definition set_fields (kvs : list (bytestring * StringPiece))
  (r : SimpleSocketContent) : SimpleSocketContent :=
  fold_left (fun r kv => setField (fst kv) (snd kv) r) kvs r.

(** The four ways [receiveRequest] can go, told by what the socket
    delivers: no full length word; a length at or over the maximum; a
    body cut short; a body handed to the decoding block. *)
Inductive receive_case (host : endianness) (allocates : Z -> bool)
  (c : SimpleSocketConnection)
  : outcome SimpleSocketConnection unit -> Prop :=
| no_length rest :
    len (readable (incoming (socket_fd_ c))) < 8 ->
    receive_case host allocates c (Throws receive_error (set_incoming rest c))
| oversized rest n :
    8 <= len (readable (incoming (socket_fd_ c))) ->
    n = unwire64 host (firstn 8 (readable (incoming (socket_fd_ c)))) ->
    kMaxRequestDataLength <= n ->
    receive_case host allocates c
      (Throws (overflow_error n)
              (set_request_data_length_ n (set_incoming rest c)))
| truncated rest n :
    8 <= len (readable (incoming (socket_fd_ c))) ->
    n = unwire64 host (firstn 8 (readable (incoming (socket_fd_ c)))) ->
    n < kMaxRequestDataLength ->
    len (readable (incoming (socket_fd_ c))) < 8 + n ->
    receive_case host allocates c
      (Throws receive_error
              (set_request_data_ (Some (malloc n))
                 (set_request_data_length_ n (set_incoming rest c))))
| delivered rest n data :
    8 <= len (readable (incoming (socket_fd_ c))) ->
    n = unwire64 host (firstn 8 (readable (incoming (socket_fd_ c)))) ->
    n < kMaxRequestDataLength ->
    8 + n <= len (readable (incoming (socket_fd_ c))) ->
    data = firstn (Z.to_nat n)
                  (skipn 8 (readable (incoming (socket_fd_ c)))) ->
    receive_case host allocates c
      (decode_request_data host allocates data n
         (set_request_data_ (Some (holding data))
            (set_request_data_length_ n (set_incoming rest c)))).

(** A size table entry that fits the two 64-bit fields it is sent in. *)
Definition size_ok (fs : Z * Z) : Prop :=
  0 <= fst fs < 2 ^ 64 /\ 0 <= snd fs < 2 ^ 64.

(** ** Sample data *)

(** A socket on which nothing was sent, not shut down, not closed. *)
Definition idle_socket (arrivals : list arrival) : socket :=
  mk_socket arrivals [] false false.

(** A Record with a value of two non-text bytes and an empty value. *)
Definition example_content : SimpleSocketContent :=
  [(list_byte_of_string "k", [x00; xff]); (list_byte_of_string "empty", [])].

(** The bytes of "hello" and a line feed. *)
Definition hello : list byte := [x68; x65; x6c; x6c; x6f; x0a].

(** The Record of the two-string form of [sendResponse] for stdout =
    "hello" with a line feed and an empty stderr. *)
Definition stdout_stderr : SimpleSocketContent :=
  [(list_byte_of_string "stdout", hello); (list_byte_of_string "stderr", [])].

(** A message for a little-endian host that announces a second key of
    2^63 bytes: a body of 42 bytes with two fields, of sizes (1, 1) and
    (2^63, 0), and the two bytes "k" and "v". *)
Definition long_key_message : bytestring :=
  wire64 LittleEndian 42 ++ wire64 LittleEndian 2
  ++ wire64 LittleEndian 1 ++ wire64 LittleEndian 1
  ++ wire64 LittleEndian (2 ^ 63) ++ wire64 LittleEndian 0
  ++ [x6b; x76].

(** A message for a little-endian host whose only value is cut short: a
    body of 27 bytes with one field, of sizes (1, 5), the key "k" and two
    bytes of the value. *)
Definition cut_value_message : bytestring :=
  wire64 LittleEndian 27 ++ wire64 LittleEndian 1
  ++ wire64 LittleEndian 1 ++ wire64 LittleEndian 5
  ++ [x6b; x76; x76].

(** A message for a little-endian host whose sizes add up to more than
    2^64: a body of 42 bytes with two fields, of sizes (2, 2^64 - 1) and
    (1, 0), and two bytes. *)
Definition wrapped_sizes_message : bytestring :=
  wire64 LittleEndian 42 ++ wire64 LittleEndian 2
  ++ wire64 LittleEndian 2 ++ wire64 LittleEndian (2 ^ 64 - 1)
  ++ wire64 LittleEndian 1 ++ wire64 LittleEndian 0
  ++ [x6b; x6b].

(** An environment in which every request for memory is met, and one in
    which no large request is. *)
Definition plenty : Z -> bool := fun _ => true.
Definition scarce : Z -> bool := fun _ => false.

(** A message for a little-endian host that announces a key of 2^40
    bytes: a body of 25 bytes with one field, of sizes (2^40, 0), and the
    byte "k". *)
Definition large_key_message : bytestring :=
  wire64 LittleEndian 25 ++ wire64 LittleEndian 1
  ++ wire64 LittleEndian (2 ^ 40) ++ wire64 LittleEndian 0
  ++ [x6b].

(** * Properties *)

(** ** Arithmetic of the representations *)

Lemma Z_of_byte_range (b : byte) : 0 <= Z_of_byte b < 256.
Proof.
  unfold Z_of_byte. pose proof (Byte.to_N_bounded b). lia.
Qed.

Lemma Z_of_byte_of_Z (x : Z) : Z_of_byte (byte_of_Z x) = x mod 256.
Proof.
  unfold Z_of_byte, byte_of_Z.
  pose proof (Z.mod_pos_bound x 256 ltac:(lia)) as Hr.
  destruct (Byte.of_N (Z.to_N (x mod 256))) as [b|] eqn:E.
  - apply Byte.to_of_N in E. rewrite E. lia.
  - apply Byte.of_N_None_iff in E. lia.
Qed.

Lemma byte_of_Z_of_byte (b : byte) : byte_of_Z (Z_of_byte b) = b.
Proof.
  unfold byte_of_Z. pose proof (Z_of_byte_range b) as Hr.
  rewrite Z.mod_small by lia. unfold Z_of_byte.
  rewrite N2Z.id, Byte.of_to_N. reflexivity.
Qed.

Lemma byte_of_Z_mod (x : Z) : byte_of_Z (x mod 256) = byte_of_Z x.
Proof.
  unfold byte_of_Z. rewrite Z.mod_mod by lia. reflexivity.
Qed.

Lemma le_bytes_length (n : nat) (x : Z) : length (le_bytes n x) = n.
Proof.
  revert x. induction n as [|n IH]; intros x; simpl; [reflexivity|].
  now rewrite IH.
Qed.

Lemma le_value_range (bs  : bytestring) : 0 <= le_value bs < 256 ^ len bs.
Proof.
  unfold len. induction bs as [|b bs IH].
  - simpl. lia.
  - cbn [le_value length]. rewrite Nat2Z.inj_succ, Z.pow_succ_r by lia.
    pose proof (Z_of_byte_range b). lia.
Qed.

Lemma le_value_le_bytes (n : nat) (x : Z) :
  le_value (le_bytes n x) = x mod 256 ^ Z.of_nat n.
Proof.
  revert x. induction n as [|n IH]; intros x.
  - simpl. now rewrite Z.mod_1_r.
  - cbn [le_bytes le_value]. rewrite IH, Z_of_byte_of_Z.
    rewrite Nat2Z.inj_succ, Z.pow_succ_r by lia.
    assert (Hp : 0 < 256 ^ Z.of_nat n) by (apply Z.pow_pos_nonneg; lia).
    rewrite (Z.rem_mul_r x 256 (256 ^ Z.of_nat n)) by lia.
    reflexivity.
Qed.

Lemma le_bytes_le_value (bs  : bytestring) : le_bytes (length bs) (le_value bs) = bs.
Proof.
  induction bs as [|b bs IH]; [reflexivity|].
  cbn [length le_bytes le_value]. pose proof (Z_of_byte_range b) as Hr.
  f_equal.
  - rewrite <- byte_of_Z_mod.
    replace ((Z_of_byte b + 256 * le_value bs) mod 256) with (Z_of_byte b).
    + apply byte_of_Z_of_byte.
    + rewrite (Z.mul_comm 256), Z.mod_add by lia.
      now rewrite Z.mod_small by lia.
  - replace ((Z_of_byte b + 256 * le_value bs) / 256) with (le_value bs);
      [exact IH|].
    rewrite (Z.mul_comm 256), Z.div_add by lia.
    rewrite (Z.div_small (Z_of_byte b)) by lia. lia.
Qed.

Lemma le_bytes_app (n m : nat) (x : Z) :
  le_bytes (n + m) x = le_bytes n x ++ le_bytes m (x / 256 ^ Z.of_nat n).
Proof.
  revert x. induction n as [|n IH]; intros x.
  - simpl. now rewrite Z.div_1_r.
  - cbn [Nat.add le_bytes app]. rewrite IH. do 2 f_equal.
    rewrite Nat2Z.inj_succ, Z.pow_succ_r by lia.
    rewrite Z.div_div by (try apply Z.pow_pos_nonneg; lia). reflexivity.
Qed.

Lemma le_bytes_mod (n : nat) (x : Z) :
  le_bytes n (x mod 256 ^ Z.of_nat n) = le_bytes n x.
Proof.
  rewrite <- (le_value_le_bytes n x).
  rewrite <- (le_bytes_length n x) at 1.
  apply le_bytes_le_value.
Qed.

(** ** The 32-bit and 64-bit conversions *)

Lemma lor_shiftl_add (a b n : Z) :
  0 <= n -> 0 <= b < 2 ^ n -> Z.lor (Z.shiftl a n) b = a * 2 ^ n + b.
Proof.
  intros Hn Hb.
  rewrite <- (Z.shiftl_mul_pow2 a n Hn), <- Z.add_lor_land.
  replace (Z.land (Z.shiftl a n) b) with 0; [lia|].
  symmetry. apply Z.bits_inj'. intros i Hi.
  rewrite Z.land_spec, Z.bits_0, Z.shiftl_spec by assumption.
  destruct (Z.ltb_spec i n) as [Hlt|Hge].
  - rewrite Z.testbit_neg_r by lia. reflexivity.
  - rewrite <- (Z.mod_small b (2 ^ n)) by lia.
    rewrite Z.mod_pow2_bits_high by lia. apply andb_false_r.
Qed.

Lemma bswap32_be_value (x : Z) : bswap32 x = le_value (be_bytes 4 x).
Proof.
  unfold bswap32, be_bytes. cbn [le_bytes rev app le_value].
  rewrite !Z_of_byte_of_Z.
  change 255 with (Z.ones 8).
  rewrite !Z.land_ones, !Z.shiftr_div_pow2 by lia.
  rewrite !Z.div_div by lia.
  change (2 ^ 8) with 256. change (2 ^ 16) with 65536.
  change (2 ^ 24) with 16777216. change (256 * 256) with 65536.
  change (65536 * 256) with 16777216. change (256 * 65536) with 16777216.
  set (b0 := x mod 256). set (b1 := (x / 256) mod 256).
  set (b2 := (x / 65536) mod 256). set (b3 := (x / 16777216) mod 256).
  assert (H0 : 0 <= b0 < 256) by (apply Z.mod_pos_bound; lia).
  assert (H1 : 0 <= b1 < 256) by (apply Z.mod_pos_bound; lia).
  assert (H2 : 0 <= b2 < 256) by (apply Z.mod_pos_bound; lia).
  assert (H3 : 0 <= b3 < 256) by (apply Z.mod_pos_bound; lia).
  rewrite (lor_shiftl_add b2 b3 8) by lia.
  rewrite (lor_shiftl_add b0 (Z.shiftl b1 16) 24)
    by (rewrite ?Z.shiftl_mul_pow2; lia).
  rewrite (Z.shiftl_mul_pow2 b1 16) by lia.
  replace (b0 * 2 ^ 24 + b1 * 2 ^ 16) with (Z.shiftl (b0 * 2 ^ 8 + b1) 16)
    by (rewrite Z.shiftl_mul_pow2; lia).
  rewrite lor_shiftl_add by lia. lia.
Qed.

Lemma be_bytes_length (n : nat) (x : Z) : length (be_bytes n x) = n.
Proof.
  unfold be_bytes. now rewrite length_rev, le_bytes_length.
Qed.

Lemma le_bytes_bswap32 (x : Z) : le_bytes 4 (bswap32 x) = be_bytes 4 x.
Proof.
  rewrite bswap32_be_value.
  rewrite <- (be_bytes_length 4 x) at 1. apply le_bytes_le_value.
Qed.

Lemma le_bytes_uint32 (x : Z) : le_bytes 4 (uint32 x) = le_bytes 4 x.
Proof.
  unfold uint32. change (2 ^ 32) with (256 ^ Z.of_nat 4). apply le_bytes_mod.
Qed.

Lemma le_bytes_uint64 (x : Z) : le_bytes 8 (uint64 x) = le_bytes 8 x.
Proof.
  unfold uint64. change (2 ^ 64) with (256 ^ Z.of_nat 8). apply le_bytes_mod.
Qed.

Lemma uint32_range (x : Z) : 0 <= uint32 x < 2 ^ 32.
Proof. unfold uint32. apply Z.mod_pos_bound. lia. Qed.

Lemma uint64_range (x : Z) : 0 <= uint64 x < 2 ^ 64.
Proof. unfold uint64. apply Z.mod_pos_bound. lia. Qed.

Lemma uint64_small (x : Z) : 0 <= x < 2 ^ 64 -> uint64 x = x.
Proof. intros H. unfold uint64. now apply Z.mod_small. Qed.

Lemma uint32_small (x : Z) : 0 <= x < 2 ^ 32 -> uint32 x = x.
Proof. intros H. unfold uint32. now apply Z.mod_small. Qed.

(** [htonl] keeps its POSIX contract on both kinds of host: the object
    that holds its result reads, byte after byte, as the network-order
    encoding of the argument. *)
Lemma store_htonl (host : endianness) (x : Z) :
  store host 4 (htonl host x) = be_bytes 4 x.
Proof.
  destruct host; unfold store, htonl.
  - rewrite le_bytes_bswap32. unfold be_bytes. now rewrite le_bytes_uint32.
  - unfold be_bytes. now rewrite le_bytes_uint32.
Qed.

Lemma htonl_range (host : endianness) (x : Z) : 0 <= htonl host x < 2 ^ 32.
Proof.
  destruct host; unfold htonl.
  - rewrite bswap32_be_value.
    pose proof (le_value_range (be_bytes 4 (uint32 x))) as H.
    unfold len in H. rewrite be_bytes_length in H. exact H.
  - apply uint32_range.
Qed.

Lemma htonl_involutive (host : endianness) (x : Z) :
  htonl host (htonl host x) = uint32 x.
Proof.
  destruct host; unfold htonl.
  - rewrite (uint32_small (bswap32 _)) by apply (htonl_range LittleEndian).
    rewrite bswap32_be_value. unfold be_bytes at 1.
    rewrite le_bytes_bswap32. unfold be_bytes. rewrite rev_involutive.
    rewrite le_value_le_bytes. change (256 ^ Z.of_nat 4) with (2 ^ 32).
    apply uint32_small, uint32_range.
  - apply uint32_small, uint32_range.
Qed.

Lemma Htonll_sum (host : endianness) (x : Z) :
  Htonll host x
  = htonl host (uint32 x) * 2 ^ 32 + htonl host (uint32 (x / 2 ^ 32)).
Proof.
  unfold Htonll. rewrite Z.shiftr_div_pow2 by lia.
  apply lor_shiftl_add; [lia|apply htonl_range].
Qed.

Lemma Ntohll_Htonll_eq (host : endianness) (x : Z) :
  Ntohll host x = Htonll host x.
Proof. reflexivity. Qed.

Lemma Htonll_range (host : endianness) (x : Z) :
  0 <= Htonll host x < 2 ^ 64.
Proof.
  rewrite Htonll_sum.
  pose proof (htonl_range host (uint32 x)).
  pose proof (htonl_range host (uint32 (x / 2 ^ 32))). lia.
Qed.

Lemma Ntohll_Htonll (host : endianness) (x : Z) :
  Ntohll host (Htonll host x) = uint64 x.
Proof.
  rewrite Ntohll_Htonll_eq, (Htonll_sum host (Htonll host x)).
  rewrite (Htonll_sum host x).
  set (a := htonl host (uint32 x)).
  set (b := htonl host (uint32 (x / 2 ^ 32))).
  assert (Ha : 0 <= a < 2 ^ 32) by apply htonl_range.
  assert (Hb : 0 <= b < 2 ^ 32) by apply htonl_range.
  replace (uint32 (a * 2 ^ 32 + b)) with b
    by (unfold uint32; rewrite Z.add_comm, Z.mod_add by lia;
        now rewrite Z.mod_small).
  replace ((a * 2 ^ 32 + b) / 2 ^ 32) with a
    by (rewrite Z.add_comm, Z.div_add by lia;
        rewrite (Z.div_small b) by lia; lia).
  rewrite (uint32_small a) by assumption.
  unfold a, b. rewrite !htonl_involutive.
  rewrite !(uint32_small (uint32 _)) by apply uint32_range.
  unfold uint32, uint64.
  change (2 ^ 64) with (2 ^ 32 * 2 ^ 32).
  rewrite (Z.rem_mul_r x (2 ^ 32) (2 ^ 32)) by lia. lia.
Qed.

Lemma load_store (host : endianness) (n : nat) (x : Z) :
  load host (store host n x) = x mod 256 ^ Z.of_nat n.
Proof.
  destruct host; unfold load, store, be_value, be_bytes;
    rewrite ?rev_involutive; apply le_value_le_bytes.
Qed.

Lemma store_length (host : endianness) (n : nat) (x : Z) :
  length (store host n x) = n.
Proof.
  destruct host; unfold store; [apply le_bytes_length|apply be_bytes_length].
Qed.

(** What [writeUInt64] sends, read back by [receiveUInt64] on a machine
    of the same byte order. *)
Lemma Ntohll_load_store_Htonll (host : endianness) (x : Z) :
  Ntohll host (load host (store host 8 (Htonll host x))) = uint64 x.
Proof.
  rewrite load_store. change (256 ^ Z.of_nat 8) with (2 ^ 64).
  rewrite Z.mod_small by apply Htonll_range. apply Ntohll_Htonll.
Qed.

Lemma le_bytes_8_split (x : Z) :
  le_bytes 8 x = le_bytes 4 x ++ le_bytes 4 (x / 2 ^ 32).
Proof. exact (le_bytes_app 4 4 x). Qed.

Lemma le_bytes_8_words (a b : Z) :
  0 <= b < 2 ^ 32 -> le_bytes 8 (a * 2 ^ 32 + b) = le_bytes 4 b ++ le_bytes 4 a.
Proof.
  intros Hb. rewrite le_bytes_8_split. f_equal.
  - rewrite <- (le_bytes_uint32 (a * 2 ^ 32 + b)). unfold uint32.
    rewrite Z.add_comm, Z.mod_add by lia. now rewrite Z.mod_small.
  - rewrite Z.add_comm, Z.div_add by lia.
    now rewrite (Z.div_small b) by lia.
Qed.

(** On a little-endian host the eight bytes that [writeUInt64] sends are
    the network-order encoding of the value. *)
Lemma store_Htonll_little (x : Z) :
  store LittleEndian 8 (Htonll LittleEndian x) = be_bytes 8 x.
Proof.
  unfold store. rewrite Htonll_sum, le_bytes_8_words by apply htonl_range.
  pose proof (store_htonl LittleEndian) as Hs. unfold store in Hs.
  rewrite !Hs. unfold be_bytes.
  rewrite !le_bytes_uint32, le_bytes_8_split, rev_app_distr. reflexivity.
Qed.

(** On a big-endian host they are its two 32-bit halves, low half first. *)
Lemma store_Htonll_big (x : Z) :
  store BigEndian 8 (Htonll BigEndian x)
  = be_bytes 4 x ++ be_bytes 4 (x / 2 ^ 32).
Proof.
  unfold store, be_bytes.
  rewrite Htonll_sum, le_bytes_8_words by apply htonl_range.
  pose proof (store_htonl BigEndian) as Hs. unfold store, be_bytes in Hs.
  rewrite rev_app_distr, 2!Hs, ?le_bytes_uint32. reflexivity.
Qed.

(** ** The receive loop *)

Lemma receiveData_step (bytes : Z) (c : SimpleSocketConnection) :
  receiveData bytes c
  = if bytes =? 0 then Returns [] c
    else
      let '(bytes_read, got, c1) := read bytes c in
      if bytes_read <=? 0 then Throws receive_error c1
      else
        match receiveData (uint64 (bytes - bytes_read)) c1 with
        | Returns rest c2 => Returns (got ++ rest) c2
        | Throws e c2 => Throws e c2
        | Aborts => Aborts
        | OutOfBounds => OutOfBounds
        end.
Proof.
  funelim (receiveData bytes c).
  1: now subst; reflexivity.
  all: destruct (Z.eqb_spec bytes 0) as [E0|E0]; [contradiction|];
    match goal with H : read _ _ = _ |- _ => rewrite H end; cbv beta iota;
    destruct (Z.leb_spec bytes_read 0) as [L|L]; try lia; try reflexivity;
    match goal with
    | H : receiveData _ _ = Returns _ _ |- _ => rewrite H
    | H : receiveData _ _ = Throws _ _ |- _ => rewrite H
    | H : receiveData _ _ = Aborts |- _ => rewrite H
    | H : receiveData _ _ = OutOfBounds |- _ => rewrite H
    end; reflexivity.
Qed.

Lemma len_nonneg {A : Type} (l : list A) : 0 <= len l.
Proof. unfold len. lia. Qed.

Lemma len_app {A : Type} (l1 l2 : list A) : len (l1 ++ l2) = len l1 + len l2.
Proof. unfold len. rewrite length_app. lia. Qed.

Lemma len_cons {A : Type} (a : A) (l : list A) : len (a :: l) = 1 + len l.
Proof. unfold len. cbn [length]. lia. Qed.

Lemma set_incoming_set_incoming (a1 a2 : list arrival)
  (c : SimpleSocketConnection) :
  set_incoming a2 (set_incoming a1 c) = set_incoming a2 c.
Proof. reflexivity. Qed.

Lemma incoming_set_incoming (a : list arrival) (c : SimpleSocketConnection) :
  incoming (socket_fd_ (set_incoming a c)) = a.
Proof. reflexivity. Qed.

(** The loop hands over exactly the first [bytes] readable bytes and
    leaves the others on the socket. *)
Lemma receiveData_enough (arrivals : list arrival) :
  forall (bytes : Z) (c : SimpleSocketConnection),
    incoming (socket_fd_ c) = arrivals ->
    0 <= bytes < 2 ^ 64 ->
    bytes <= len (readable arrivals) ->
    exists rest,
      receiveData bytes c
      = Returns (firstn (Z.to_nat bytes) (readable arrivals))
                (set_incoming rest c)
      /\ readable rest = skipn (Z.to_nat bytes) (readable arrivals).
Proof.
  induction arrivals as [|a arrivals IH]; intros bytes c Hin Hb Hlen;
    rewrite receiveData_step.
  - cbn [readable] in *. change (len (@nil byte)) with 0 in Hlen.
    assert (bytes = 0) by lia. subst bytes. simpl.
    exists []. split; [|reflexivity].
    destruct c as [[i o s cl] l d r m]. simpl in Hin. subst i. reflexivity.
  - destruct (Z.eqb_spec bytes 0) as [E|E].
    + subst bytes. exists (a :: arrivals). split; [|reflexivity].
      destruct c as [[i o s cl] l d r m]. simpl in Hin. subst i. reflexivity.
    + unfold read, sys_read. rewrite Hin.
      destruct a as [[|b data]|].
      * cbn [readable] in Hlen. change (len (@nil byte)) with 0 in Hlen. lia.
      * set (seg := b :: data) in *.
        assert (Hseg : 0 < len seg) by (unfold seg; rewrite len_cons;
                                        pose proof (len_nonneg data); lia).
        change (readable (Segment seg :: arrivals))
          with (seg ++ readable arrivals) in *.
        rewrite len_app in Hlen. clearbody seg.
        destruct (Z.ltb_spec (Z.min bytes (len seg)) (len seg)) as [Hlt|Hge].
        -- (* the segment holds more than is asked for *)
           assert (Hmin : Z.min bytes (len seg) = bytes) by lia.
           rewrite Hmin.
           assert (Hpos : (bytes <=? 0) = false) by (apply Z.leb_gt; lia).
           rewrite Hpos, Z.sub_diag. change (uint64 0) with 0.
           rewrite receiveData_step. simpl (0 =? 0).  cbv iota.
           rewrite app_nil_r.
           exists (Segment (skipn (Z.to_nat bytes) seg) :: arrivals).
           assert (Hn : (Z.to_nat bytes < length seg)%nat)
             by (unfold len in Hlt; lia).
           split.
           ++ rewrite firstn_app.
              replace (Z.to_nat bytes - length seg)%nat with 0%nat by lia.
              rewrite firstn_O, app_nil_r. reflexivity.
           ++ rewrite skipn_app.
              replace (Z.to_nat bytes - length seg)%nat with 0%nat by lia.
              rewrite skipn_O.
              destruct (skipn (Z.to_nat bytes) seg) as [|b' seg'] eqn:Es.
              ** apply (f_equal (@length byte)) in Es.
                 rewrite length_skipn in Es. simpl in Es. lia.
              ** reflexivity.
        -- (* the whole segment is taken and the loop goes on *)
           assert (Hmin : Z.min bytes (len seg) = len seg) by lia.
           rewrite Hmin.
           assert (Hpos : (len seg <=? 0) = false) by (apply Z.leb_gt; lia).
           rewrite Hpos.
           rewrite uint64_small by lia.
           replace (Z.to_nat (len seg)) with (length seg)
             by (unfold len; lia).
           rewrite firstn_all.
           match goal with
           | |- context [receiveData _ ?c1] =>
               destruct (IH (bytes - len seg) c1) as [rest [Hr Hs]];
               [reflexivity|lia|lia|]
           end.
           rewrite Hr. exists rest.
           assert (Hn : Z.to_nat bytes
                        = (length seg + Z.to_nat (bytes - len seg))%nat)
             by (unfold len in *; lia).
           split.
           ++ rewrite Hn, firstn_app_2. reflexivity.
           ++ rewrite Hs, Hn, skipn_app.
              rewrite (@skipn_all2 _ (length seg + Z.to_nat (bytes - len seg))
                         seg) by (clear; lia).
              rewrite Nat.add_comm, Nat.add_sub. reflexivity.
      * cbn [readable] in Hlen. change (len (@nil byte)) with 0 in Hlen. lia.
Qed.

(** When fewer bytes are readable than are asked for, a read comes back
    with zero or less before the count is reached, and the loop throws. *)
Lemma receiveData_short (arrivals : list arrival) :
  forall (bytes : Z) (c : SimpleSocketConnection),
    incoming (socket_fd_ c) = arrivals ->
    0 <= bytes < 2 ^ 64 ->
    len (readable arrivals) < bytes ->
    exists rest,
      receiveData bytes c = Throws receive_error (set_incoming rest c).
Proof.
  induction arrivals as [|a arrivals IH]; intros bytes c Hin Hb Hlen;
    rewrite receiveData_step;
    (destruct (Z.eqb_spec bytes 0) as [E|E];
     [match type of Hlen with len ?l < _ => pose proof (len_nonneg l) end;
      lia|]);
    unfold read, sys_read; rewrite Hin.
  - exists []. simpl.
    destruct c as [[i o s cl] l d r m]. simpl in Hin. subst i. reflexivity.
  - destruct a as [[|b data]|].
    + exists arrivals. change (len (@nil byte)) with 0.
      rewrite Z.min_r by lia. reflexivity.
    + set (seg := b :: data) in *.
      assert (Hseg : 0 < len seg) by (unfold seg; rewrite len_cons;
                                      pose proof (len_nonneg data); lia).
      change (readable (Segment seg :: arrivals))
        with (seg ++ readable arrivals) in *.
      rewrite len_app in Hlen. clearbody seg.
      pose proof (len_nonneg (readable arrivals)) as Hnn.
      assert (Hmin : Z.min bytes (len seg) = len seg) by lia.
      rewrite Hmin, Z.ltb_irrefl.
      assert (Hpos : (len seg <=? 0) = false) by (apply Z.leb_gt; lia).
      rewrite Hpos, uint64_small by lia.
      match goal with
      | |- context [receiveData _ ?c1] =>
          destruct (IH (bytes - len seg) c1) as [rest Hr];
          [reflexivity|lia|lia|]
      end.
      rewrite Hr. exists rest. reflexivity.
    + exists arrivals. simpl. reflexivity.
Qed.

Lemma firstn_len {A : Type} (n : Z) (l : list A) :
  0 <= n <= len l -> len (firstn (Z.to_nat n) l) = n.
Proof.
  unfold len. intros H. rewrite length_firstn. lia.
Qed.

Lemma skipn_len {A : Type} (n : Z) (l : list A) :
  0 <= n <= len l -> len (skipn (Z.to_nat n) l) = len l - n.
Proof.
  unfold len. intros H. rewrite length_skipn. lia.
Qed.

(** ** The steps of [receiveRequest] *)

Lemma unwire64_range (host : endianness) (code : bytestring) :
  0 <= unwire64 host code < 2 ^ 64.
Proof.
  unfold unwire64. rewrite Ntohll_Htonll_eq. apply Htonll_range.
Qed.

Lemma unwire64_wire64 (host : endianness) (x : Z) :
  unwire64 host (wire64 host x) = uint64 x.
Proof. apply Ntohll_load_store_Htonll. Qed.

Lemma wire64_length (host : endianness) (x : Z) : length (wire64 host x) = 8%nat.
Proof. apply store_length. Qed.

Lemma wire64_len (host : endianness) (x : Z) : len (wire64 host x) = 8.
Proof. unfold len. now rewrite wire64_length. Qed.

Lemma receiveUInt64_enough (host : endianness) (c : SimpleSocketConnection) :
  8 <= len (readable (incoming (socket_fd_ c))) ->
  exists rest,
    receiveUInt64 host c
    = Returns (unwire64 host (firstn 8 (readable (incoming (socket_fd_ c)))))
              (set_incoming rest c)
    /\ readable rest = skipn 8 (readable (incoming (socket_fd_ c))).
Proof.
  intros H.
  destruct (receiveData_enough _ 8 c eq_refl ltac:(lia) H) as [rest [Hr Hs]].
  exists rest. split; [|exact Hs].
  unfold receiveUInt64, bind. rewrite Hr. reflexivity.
Qed.

Lemma receiveUInt64_short (host : endianness) (c : SimpleSocketConnection) :
  len (readable (incoming (socket_fd_ c))) < 8 ->
  exists rest,
    receiveUInt64 host c = Throws receive_error (set_incoming rest c).
Proof.
  intros H.
  destruct (receiveData_short _ 8 c eq_refl ltac:(lia) H) as [rest Hr].
  exists rest. unfold receiveUInt64, bind. rewrite Hr. reflexivity.
Qed.

Lemma receiveRequest_cases (host : endianness) (allocates : Z -> bool)
  (c : SimpleSocketConnection) :
  receive_case host allocates c (receiveRequest host allocates c).
Proof.
  set (stream := readable (incoming (socket_fd_ c))).
  destruct (Z_lt_le_dec (len stream) 8) as [Hs|Hs].
  - destruct (receiveUInt64_short host c Hs) as [rest Hr].
    unfold receiveRequest, bind. rewrite Hr. now apply no_length.
  - destruct (receiveUInt64_enough host c Hs) as [rest [Hr Hrest]].
    fold stream in Hr, Hrest.
    set (n := unwire64 host (firstn 8 stream)) in *.
    pose proof (unwire64_range host (firstn 8 stream)) as Hn. fold n in Hn.
    unfold receiveRequest. unfold bind at 1. rewrite Hr.
    unfold bind at 1. unfold modify at 1. unfold bind at 1.
    destruct (Z.leb_spec kMaxRequestDataLength n) as [Hmax|Hmax].
    + unfold throw. now apply oversized.
    + unfold ret at 1. unfold bind at 1. unfold modify at 1.
      unfold bind at 1.
      set (c1 := set_request_data_ (Some (malloc n))
                   (set_request_data_length_ n (set_incoming rest c))).
      assert (Hin1 : incoming (socket_fd_ c1) = rest) by reflexivity.
      assert (Hlen8 : len (skipn 8 stream) = len stream - 8)
        by (apply (skipn_len 8); lia).
      destruct (Z_lt_le_dec (len stream) (8 + n)) as [Hb|Hb].
      * destruct (receiveData_short rest n c1 Hin1 Hn) as [rest' Hr'].
        { rewrite Hrest. lia. }
        rewrite Hr'. now apply (truncated host allocates c rest' n).
      * destruct (receiveData_enough rest n c1 Hin1 Hn) as [rest' [Hr' _]].
        { rewrite Hrest. lia. }
        rewrite Hr', Hrest. unfold bind at 1. unfold modify at 1.
        now apply (delivered host allocates c rest' n).
Qed.

(** ** Encoding *)

Lemma send_send (a b : bytestring) (c : SimpleSocketConnection) :
  send b (send a c) = send (a ++ b) c.
Proof.
  unfold send, with_socket. simpl. now rewrite app_assoc.
Qed.

Lemma send_nil (c : SimpleSocketConnection) : send [] c = c.
Proof.
  destruct c as [[i o s cl] l d r m]. unfold send, with_socket. simpl.
  now rewrite app_nil_r.
Qed.

Lemma write_all (src : bytestring) (c : SimpleSocketConnection) :
  write src (len src) c = Returns tt (send src c).
Proof.
  unfold write, modify, sys_write, send, len.
  now rewrite Nat2Z.id, firstn_all.
Qed.

Lemma writeUInt64_sends (host : endianness) (value : Z)
  (c : SimpleSocketConnection) :
  writeUInt64 host value c = Returns tt (send (wire64 host value) c).
Proof.
  change (writeUInt64 host value c) with (write (wire64 host value) 8 c).
  rewrite <- (wire64_len host value) at 1. apply write_all.
Qed.

Lemma write_size_table (host : endianness) (sizes : list (Z * Z)) :
  forall c,
    for_each sizes
      (fun it => writeUInt64 host (fst it) ;; writeUInt64 host (snd it)) c
    = Returns tt (send (size_table host sizes) c).
Proof.
  induction sizes as [|[k v] sizes IH]; intros c.
  - simpl. now rewrite send_nil.
  - cbn [for_each]. unfold bind at 1. unfold bind at 1.
    rewrite !writeUInt64_sends, IH, !send_send. cbn [fst snd].
    unfold size_table. cbn [flat_map fst snd]. now rewrite <- !app_assoc.
Qed.

Lemma nth_middle_len {A : Type} (done rest : list A) (a d : A) :
  nth (Z.to_nat (len done)) (done ++ a :: rest) d = a.
Proof.
  unfold len. rewrite Nat2Z.id. apply nth_middle.
Qed.

Lemma sizes_of_app (a b : list (bytestring * StringPiece)) :
  sizes_of (a ++ b) = sizes_of a ++ sizes_of b.
Proof. apply map_app. Qed.

Lemma len_sizes_of (fs : list (bytestring * StringPiece)) :
  len (sizes_of fs) = len fs.
Proof. unfold len, sizes_of. now rewrite length_map. Qed.

Lemma write_payload (field_ptrs : list (bytestring * StringPiece))
  (rest : list (bytestring * StringPiece)) :
  forall done c,
    field_ptrs = done ++ rest ->
    for_rounds (length rest) (len done)
      (fun i (_ : unit) =>
         let fp := nth (Z.to_nat i) field_ptrs ([], []) in
         let fs := nth (Z.to_nat i) (sizes_of field_ptrs) (0, 0) in
         write (fst fp) (fst fs) ;; write (snd fp) (snd fs))
      tt c
    = Returns tt (send (payload rest) c).
Proof.
  induction rest as [|[k v] rest IH]; intros done c Hsplit.
  - simpl. now rewrite send_nil.
  - assert (H1 : nth (Z.to_nat (len done)) field_ptrs ([], []) = (k, v))
      by (subst field_ptrs; apply nth_middle_len).
    assert (H2 : nth (Z.to_nat (len done)) (sizes_of field_ptrs) (0, 0)
                 = (len k, len v)).
    { subst field_ptrs. rewrite sizes_of_app. cbn [sizes_of map].
      rewrite <- len_sizes_of. apply nth_middle_len. }
    cbn [for_rounds length]. unfold bind at 1. unfold bind at 1.
    rewrite H1, H2. cbn [fst snd]. rewrite !write_all.
    replace (len done + 1) with (len (done ++ [(k, v)]))
      by (rewrite len_app; reflexivity).
    rewrite (IH (done ++ [(k, v)]))
      by (rewrite <- app_assoc; exact Hsplit).
    rewrite !send_send. unfold payload. cbn [flat_map fst snd].
    now rewrite <- !app_assoc.
Qed.

Lemma sum_sizes_app (a b : list (Z * Z)) :
  sum_sizes (a ++ b) = sum_sizes a + sum_sizes b.
Proof.
  unfold sum_sizes. induction a as [|x a IH]; simpl; lia.
Qed.

Lemma sum_sizes_nonneg (fs : list (bytestring * StringPiece)) :
  0 <= sum_sizes (sizes_of fs).
Proof.
  induction fs as [|[k v] fs IH]; simpl; [lia|].
  pose proof (len_nonneg k). pose proof (len_nonneg v). lia.
Qed.

Lemma uint64_add_l (a b : Z) : uint64 (uint64 a + b) = uint64 (a + b).
Proof. unfold uint64. apply Z.add_mod_idemp_l. lia. Qed.

Lemma uint64_add_r (a b : Z) : uint64 (a + uint64 b) = uint64 (a + b).
Proof. unfold uint64. apply Z.add_mod_idemp_r. lia. Qed.

(** The first loop of [sendResponse]. *)
Lemma calculate_field_sizes (fs : list (bytestring * StringPiece)) :
  forall total_size field_ptrs field_sizes,
  exists total_size',
    fold_left
      (fun '(total_size, field_ptrs, field_sizes) it =>
         let key := fst it in
         let value := snd it in
         (uint64 (total_size + uint64 (len key + len value)),
          field_ptrs ++ [(key, value)],
          field_sizes ++ [(len key, len value)]))
      fs (total_size, field_ptrs, field_sizes)
    = (total_size', field_ptrs ++ fs, field_sizes ++ sizes_of fs)
    /\ uint64 total_size' = uint64 (total_size + sum_sizes (sizes_of fs)).
Proof.
  induction fs as [|[k v] fs IH]; intros t p s.
  - exists t. simpl. rewrite !app_nil_r, Z.add_0_r. auto.
  - destruct (IH (uint64 (t + uint64 (len k + len v)))
                 (p ++ [(k, v)]) (s ++ [(len k, len v)])) as [t' [E Ht]].
    exists t'. split.
    + rewrite <- !app_assoc in E. exact E.
    + rewrite Ht, uint64_add_l.
      rewrite <- (Z.add_assoc t), (Z.add_comm (uint64 _)), Z.add_assoc.
      rewrite uint64_add_r. apply (f_equal uint64).
      unfold sum_sizes, sizes_of. cbn [map fold_right fst snd]. lia.
Qed.

Lemma sendResponse_sends (host : endianness) (response : SimpleSocketContent)
  (c : SimpleSocketConnection) :
  total_length response < 2 ^ 64 ->
  sendResponse host response c = Returns tt (send (frame host response) c).
Proof.
  intros Hfit. unfold sendResponse.
  destruct (calculate_field_sizes (fields response) 0 [] [])
    as [t [E Ht]].
  match goal with
  | |- context [fold_left ?f ?l ?a] =>
      replace (fold_left f l a)
        with (t, [] ++ fields response, [] ++ sizes_of (fields response))
        by (symmetry; exact E)
  end.
  cbn [app]. clear E.
  set (fs := fields response) in *.
  assert (Htotal : uint64 (t + uint64 (8 * (1 + 2 * len fs)))
                   = total_length response).
  { rewrite uint64_add_r, <- uint64_add_l, Ht, uint64_add_l.
    unfold total_length. fold fs.
    pose proof (sum_sizes_nonneg fs). pose proof (len_nonneg fs).
    replace (0 + sum_sizes (sizes_of fs) + 8 * (1 + 2 * len fs))
      with (8 + 16 * len fs + sum_sizes (sizes_of fs)) by lia.
    apply uint64_small. unfold total_length in Hfit. fold fs in Hfit. lia. }
  rewrite Htotal.
  unfold bind at 1. rewrite writeUInt64_sends.
  unfold bind at 1. rewrite writeUInt64_sends.
  unfold bind at 1. rewrite write_size_table.
  unfold for_lt. unfold len at 1. rewrite Nat2Z.id.
  rewrite (write_payload fs fs [] _ eq_refl).
  rewrite !send_send. unfold frame, body. fold fs.
  rewrite <- ?app_assoc. reflexivity.
Qed.

(** ** Decoding *)

Lemma next_uint64_inside (host : endianness) (buf : bytestring) (p : Z)
  (c : SimpleSocketConnection) :
  0 <= p -> p + 8 <= len buf ->
  next_uint64 host buf p c
  = Returns (load host (firstn 8 (skipn (Z.to_nat p) buf)), p + 8) c.
Proof.
  intros H0 H8. unfold next_uint64.
  destruct (Z.leb_spec 0 p); [|lia].
  destruct (Z.leb_spec (p + 8) (len buf)); [|lia]. reflexivity.
Qed.

Lemma next_uint64_outside (host : endianness) (buf : bytestring) (p : Z)
  (c : SimpleSocketConnection) :
  len buf < p + 8 -> next_uint64 host buf p c = OutOfBounds.
Proof.
  intros H8. unfold next_uint64.
  destruct (Z.leb_spec (p + 8) (len buf)); [lia|].
  now rewrite andb_false_r.
Qed.

(** The first loop: [count] more entries from entry [j] on. *)
Lemma read_field_sizes_rounds (host : endianness) (buf : bytestring)
  (c : SimpleSocketConnection) (count : nat) :
  forall (j : nat) (i : Z) (field_sizes : list (Z * Z)),
    for_rounds count i
      (fun _ '(field_sizes, size_ptr) =>
         '(code, size_ptr) <- next_uint64 host buf size_ptr ;;
         let key_size := Ntohll host code in
         '(code, size_ptr) <- next_uint64 host buf size_ptr ;;
         let value_size := Ntohll host code in
         ret (field_sizes ++ [(key_size, value_size)], size_ptr))
      (field_sizes, 8 + 16 * Z.of_nat j) c
    = if (count =? 0)%nat || (8 + 16 * Z.of_nat (j + count) <=? len buf)
      then Returns
             (field_sizes
              ++ map (fun i => (uint64_at host buf (8 + 16 * Z.of_nat i),
                                uint64_at host buf (16 + 16 * Z.of_nat i)))
                     (seq j count),
              8 + 16 * Z.of_nat (j + count)) c
      else OutOfBounds.
Proof.
  induction count as [|count IH]; intros j i field_sizes.
  - simpl. rewrite app_nil_r, Nat.add_0_r. reflexivity.
  - cbn [for_rounds Nat.eqb orb]. unfold bind at 1.
    set (p := 8 + 16 * Z.of_nat j).
    destruct (Z.leb_spec (8 + 16 * Z.of_nat (j + S count)) (len buf))
      as [Hin|Hout].
    + unfold bind at 1.
      rewrite next_uint64_inside by lia. unfold bind at 1.
      rewrite next_uint64_inside by lia. unfold ret at 1.
      replace (p + 8 + 8) with (8 + 16 * Z.of_nat (S j)) by lia.
      rewrite IH.
      replace (S j + count)%nat with (j + S count)%nat by lia.
      destruct (Z.leb_spec (8 + 16 * Z.of_nat (j + S count)) (len buf));
        [|lia].
      rewrite orb_true_r, <- app_assoc. cbn [seq map app].
      unfold uint64_at, unwire64. subst p.
      replace (16 + 16 * Z.of_nat j) with (8 + 16 * Z.of_nat j + 8) by lia.
      reflexivity.
    + unfold bind at 1.
      destruct (Z_lt_le_dec (len buf) (p + 8)) as [H1|H1].
      * now rewrite next_uint64_outside.
      * rewrite next_uint64_inside by lia. unfold bind at 1.
        destruct (Z_lt_le_dec (len buf) (p + 8 + 8)) as [H2|H2].
        -- now rewrite next_uint64_outside.
        -- rewrite next_uint64_inside by lia. unfold ret at 1.
           replace (p + 8 + 8) with (8 + 16 * Z.of_nat (S j)) by lia.
           rewrite IH.
           replace (S j + count)%nat with (j + S count)%nat by lia.
           destruct (Z.leb_spec (8 + 16 * Z.of_nat (j + S count)) (len buf));
             [lia|].
           destruct count as [|count']; [|reflexivity].
           exfalso. subst p. lia.
Qed.

Lemma read_field_sizes_spec (host : endianness) (buf : bytestring)
  (c : SimpleSocketConnection) :
  8 <= len buf ->
  read_field_sizes host buf (uint64_at host buf 0) 8 c
  = match announced_sizes host buf with
    | Some sizes => Returns (sizes, 8 + 16 * len sizes) c
    | None => OutOfBounds
    end.
Proof.
  intros H8. unfold read_field_sizes, for_lt, announced_sizes, announced_fields.
  destruct (Z.leb_spec 8 (len buf)); [|lia].
  set (n := uint64_at host buf 0).
  assert (Hn : 0 <= n < 2 ^ 64) by apply unwire64_range.
  pose proof (read_field_sizes_rounds host buf c (Z.to_nat n) 0 0 []) as R.
  change (8 + 16 * Z.of_nat 0) with 8 in R. refine (eq_trans R _). clear R.
  cbn [app Nat.add]. rewrite Z2Nat.id by lia.
  destruct (Z.leb_spec (8 + 16 * n) (len buf)) as [Hin|Hout].
  - rewrite orb_true_r.
    replace (len (map _ (seq 0 (Z.to_nat n)))) with n; [reflexivity|].
    unfold len. rewrite length_map, length_seq. lia.
  - destruct (Nat.eqb_spec (Z.to_nat n) 0) as [E|E]; [|reflexivity].
    exfalso. lia.
Qed.

Lemma set_request_set_request (r1 r2 : SimpleSocketContent)
  (c : SimpleSocketConnection) :
  set_request_ r2 (set_request_ r1 c) = set_request_ r2 c.
Proof. reflexivity. Qed.

Lemma set_request_same (c : SimpleSocketConnection) :
  set_request_ (request_ c) c = c.
Proof. now destruct c. Qed.

(** The second loop: the fields from entry [len done] on. *)
Lemma populate_fields_rounds (allocates : Z -> bool) (buf : bytestring)
  (field_sizes : list (Z * Z)) (rest : list (Z * Z)) :
  forall (done : list (Z * Z)) (data_ptr : Z) (c : SimpleSocketConnection),
    field_sizes = done ++ rest ->
    for_rounds (length rest) (len done)
      (fun i data_ptr =>
         let fs := nth (Z.to_nat i) field_sizes (0, 0) in
         let key_size := fst fs in
         let value_size := snd fs in
         let key := data_ptr in
         let value := uint64 (data_ptr + key_size) in
         set_request_field allocates buf key key_size value value_size ;;
         ret (uint64 (data_ptr + uint64 (key_size + value_size))))
      data_ptr c
    = match cut_fields allocates buf data_ptr rest with
      | cut_all kvs p =>
          Returns p (set_request_ (set_fields kvs (request_ c)) c)
      | key_outside => OutOfBounds
      | key_refused e kvs =>
          Throws e (set_request_ (set_fields kvs (request_ c)) c)
      end.
Proof.
  induction rest as [|[ks vs] rest IH]; intros done p c Hsplit.
  - simpl. now rewrite set_request_same.
  - assert (Hnth : nth (Z.to_nat (len done)) field_sizes (0, 0) = (ks, vs))
      by (subst field_sizes; apply nth_middle_len).
    cbn [for_rounds length cut_fields]. unfold bind at 1.
    cbv zeta. rewrite Hnth. cbn [fst snd].
    unfold bind at 1. unfold set_request_field.
    destruct (string_refused allocates ks) as [e|].
    { unfold throw. cbn [set_fields fold_left]. now rewrite set_request_same. }
    destruct (slice buf p ks) as [k|]; [|reflexivity].
    unfold modify at 1. unfold ret at 1.
    replace (len done + 1) with (len (done ++ [(ks, vs)]))
      by (rewrite len_app; reflexivity).
    rewrite (IH (done ++ [(ks, vs)]))
      by (rewrite <- app_assoc; exact Hsplit).
    destruct (cut_fields allocates buf (uint64 (p + uint64 (ks + vs))) rest)
      as [kvs p'| |e kvs]; reflexivity.
Qed.

Lemma populate_fields_spec (allocates : Z -> bool) (buf : bytestring)
  (sizes : list (Z * Z)) (data_ptr : Z) (c : SimpleSocketConnection) :
  populate_fields allocates buf (len sizes) sizes data_ptr c
  = match cut_fields allocates buf data_ptr sizes with
    | cut_all kvs p =>
        Returns p (set_request_ (set_fields kvs (request_ c)) c)
    | key_outside => OutOfBounds
    | key_refused e kvs =>
        Throws e (set_request_ (set_fields kvs (request_ c)) c)
    end.
Proof.
  unfold populate_fields, for_lt.
  replace (Z.to_nat (len sizes)) with (length sizes) by (unfold len; lia).
  exact (populate_fields_rounds allocates buf sizes sizes [] data_ptr c
           eq_refl).
Qed.

Lemma announced_sizes_len (host : endianness) (buf : bytestring)
  (sizes : list (Z * Z)) :
  announced_sizes host buf = Some sizes ->
  len sizes = uint64_at host buf 0 /\ 8 + 16 * len sizes <= len buf.
Proof.
  unfold announced_sizes, announced_fields.
  destruct (Z.leb_spec 8 (len buf)); [|discriminate].
  destruct (Z.leb_spec (8 + 16 * uint64_at host buf 0) (len buf));
    [|discriminate].
  intros E.
  pose proof (unwire64_range host (firstn 8 (skipn (Z.to_nat 0) buf))) as Hr.
  fold (uint64_at host buf 0) in Hr.
  assert (Hl : len sizes = uint64_at host buf 0).
  { apply (f_equal (option_map (@length (Z * Z)))) in E. cbn [option_map] in E.
    rewrite length_map, length_seq in E. unfold len.
    injection E as E. lia. }
  rewrite Hl. split; [reflexivity|assumption].
Qed.

(** What the decoding block does, in one equation: it leaves the block
    where the announced size table or a key does not fit, throws at a key
    that [std::string] refuses, and otherwise sets the fields and compares
    the offset reached with [n]. *)
Lemma decode_request_data_spec (host : endianness) (allocates : Z -> bool)
  (data : bytestring) (n : Z) (c : SimpleSocketConnection) :
  decode_request_data host allocates data n c
  = match announced_sizes host data with
    | None => OutOfBounds
    | Some sizes =>
        match cut_fields allocates data (8 + 16 * len sizes) sizes with
        | cut_all kvs p =>
            if n =? p
            then Returns tt (set_request_ (set_fields kvs (request_ c)) c)
            else Aborts
        | key_outside => OutOfBounds
        | key_refused e kvs =>
            Throws e (set_request_ (set_fields kvs (request_ c)) c)
        end
    end.
Proof.
  unfold decode_request_data. unfold bind at 1.
  destruct (Z_lt_le_dec (len data) 8) as [H8|H8].
  - rewrite next_uint64_outside by lia.
    unfold announced_sizes, announced_fields.
    destruct (Z.leb_spec 8 (len data)); [lia|reflexivity].
  - rewrite next_uint64_inside by lia. cbv zeta.
    change (Ntohll host (load host (firstn 8 (skipn (Z.to_nat 0) data))))
      with (uint64_at host data 0).
    unfold bind at 1. change (0 + 8) with 8.
    rewrite read_field_sizes_spec by assumption.
    destruct (announced_sizes host data) as [sizes|] eqn:Es; [|reflexivity].
    destruct (announced_sizes_len host data sizes Es) as [Hl _].
    unfold bind at 1. rewrite <- Hl, populate_fields_spec.
    destruct (cut_fields allocates data (8 + 16 * len sizes) sizes)
      as [kvs p| |e kvs]; [|reflexivity|reflexivity].
    change (0 + n) with n. unfold ret, check_failed.
    destruct (n =? p); reflexivity.
Qed.

(** ** When the cut ranges stay inside the block *)

Lemma sum_sizes_cons (fs : Z * Z) (sizes : list (Z * Z)) :
  sum_sizes (fs :: sizes) = fst fs + snd fs + sum_sizes sizes.
Proof. reflexivity. Qed.

Lemma sum_sizes_ok_nonneg (sizes : list (Z * Z)) :
  Forall size_ok sizes -> 0 <= sum_sizes sizes.
Proof.
  induction 1 as [|fs sizes [Hk Hv] _ IH].
  - simpl. lia.
  - rewrite sum_sizes_cons. lia.
Qed.

Lemma slice_inside (buf : bytestring) (p n : Z) :
  0 <= p -> 0 <= n -> p + n <= len buf ->
  slice buf p n = Some (firstn (Z.to_nat n) (skipn (Z.to_nat p) buf)).
Proof.
  intros Hp Hn Hin. unfold slice.
  destruct (Z.eqb_spec n 0) as [->|_]; [reflexivity|].
  destruct (Z.leb_spec 0 p); [|lia]. destruct (Z.leb_spec 0 n); [|lia].
  destruct (Z.leb_spec (p + n) (len buf)); [|lia]. reflexivity.
Qed.

Lemma firstn_add {A : Type} (a b : nat) (l : list A) :
  firstn (a + b) l = firstn a l ++ firstn b (skipn a l).
Proof.
  revert l. induction a as [|a IH]; intros l; [reflexivity|].
  destruct l as [|x l]; cbn [Nat.add firstn skipn app].
  - now rewrite firstn_nil.
  - now rewrite IH.
Qed.

Lemma piece_inside (buf : bytestring) (p n : Z) :
  0 <= p -> 0 <= n -> p + n <= len buf ->
  piece buf p n = firstn (Z.to_nat n) (skipn (Z.to_nat p) buf).
Proof.
  intros Hp Hn Hin. unfold piece.
  rewrite !Z.min_l by lia. reflexivity.
Qed.

Lemma uint64_add_uint64 (p x : Z) : uint64 (p + uint64 x) = uint64 (p + x).
Proof. unfold uint64. now rewrite Zplus_mod_idemp_r. Qed.

Lemma uint64_uint64_add (p x : Z) : uint64 (uint64 p + x) = uint64 (p + x).
Proof. unfold uint64. now rewrite Zplus_mod_idemp_l. Qed.

(** [std::string] refuses no key shorter than the largest block. *)
Lemma string_accepted (allocates : Z -> bool) (n : Z) :
  n < kMaxRequestDataLength -> string_refused allocates n = None.
Proof.
  intros Hn. unfold string_refused.
  assert (Hk : kMaxRequestDataLength < string_max_size) by reflexivity.
  destruct (Z.ltb_spec string_max_size n); [lia|].
  destruct (Z.leb_spec kMaxRequestDataLength n); [lia|reflexivity].
Qed.

(** When all that the size table announces lies inside the block, all
    fields are cut, and the offset reached is the plain sum. *)
Lemma cut_fields_inside (allocates : Z -> bool) (buf : bytestring)
  (sizes : list (Z * Z)) :
  forall p,
    Forall size_ok sizes ->
    0 <= p -> p + sum_sizes sizes <= len buf ->
    len buf < kMaxRequestDataLength ->
    exists kvs,
      cut_fields allocates buf p sizes = cut_all kvs (p + sum_sizes sizes)
      /\ sizes_of kvs = sizes
      /\ payload kvs
         = firstn (Z.to_nat (sum_sizes sizes)) (skipn (Z.to_nat p) buf).
Proof.
  assert (Hk : kMaxRequestDataLength < 2 ^ 62) by reflexivity.
  induction sizes as [|[ks vs] sizes IH]; intros p Hok Hp Hin Hbuf.
  - exists []. simpl. rewrite Z.add_0_r. auto.
  - inversion Hok as [|? ? [Hk' Hv] Hok']; subst. cbn [fst snd] in Hk', Hv.
    pose proof (sum_sizes_ok_nonneg sizes Hok') as Hs.
    rewrite sum_sizes_cons in Hin |- *. cbn [fst snd] in Hin |- *.
    cbn [cut_fields]. rewrite string_accepted by lia.
    rewrite (slice_inside buf p ks) by lia.
    rewrite (uint64_small (ks + vs)), (uint64_small (p + ks)),
      (uint64_small (p + (ks + vs))) by lia.
    rewrite (piece_inside buf (p + ks) vs) by lia.
    destruct (IH (p + (ks + vs)) Hok') as (kvs & E & Es & Ep); [lia|lia|lia|].
    rewrite E. eexists. split; [|split].
    + cbn [cut_more]. f_equal. lia.
    + unfold sizes_of in *. cbn [map fst snd]. rewrite Es.
      f_equal. f_equal; unfold len; rewrite length_firstn, length_skipn;
        unfold len in *; lia.
    + unfold payload in *. cbn [flat_map fst snd]. rewrite Ep.
      rewrite <- app_assoc.
      replace (Z.to_nat (ks + vs + sum_sizes sizes))
        with (Z.to_nat ks + (Z.to_nat vs + Z.to_nat (sum_sizes sizes)))%nat
        by lia.
      rewrite !firstn_add, !skipn_skipn.
      repeat f_equal; lia.
Qed.

(** When no key is refused and every key is inside the block, all fields
    are cut, whatever the values; the offset reached is the sum modulo
    2^64. *)
Lemma cut_fields_keys_inside (allocates : Z -> bool) (buf : bytestring)
  (sizes : list (Z * Z)) :
  forall p,
    Forall size_ok sizes -> 0 <= p < 2 ^ 64 ->
    keys_inside allocates buf p sizes = true ->
    exists kvs,
      cut_fields allocates buf p sizes
      = cut_all kvs (uint64 (p + sum_sizes sizes)).
Proof.
  induction sizes as [|[ks vs] sizes IH]; intros p Hok Hp Hin.
  - exists []. simpl. rewrite Z.add_0_r, uint64_small by lia. reflexivity.
  - inversion Hok as [|? ? [Hk Hv] Hok']; subst. cbn [fst snd] in Hk, Hv.
    cbn [keys_inside cut_fields] in *.
    destruct (string_refused allocates ks); [discriminate|].
    apply andb_prop in Hin. destruct Hin as [Hkey Hrest].
    assert (Hs : exists k, slice buf p ks = Some k).
    { unfold slice. destruct (Z.eqb_spec ks 0) as [E|E]; [eauto|].
      cbn [orb] in Hkey. apply Z.leb_le in Hkey.
      destruct (Z.leb_spec 0 p); [|lia]. destruct (Z.leb_spec 0 ks); [|lia].
      destruct (Z.leb_spec (p + ks) (len buf)); [|lia]. cbn [andb]. eauto. }
    destruct Hs as [k Hs]. rewrite Hs.
    rewrite uint64_add_uint64.
    replace (p + (ks + vs)) with (p + ks + vs) by lia.
    destruct (IH (uint64 (p + ks + vs)) Hok') as [kvs E];
      [apply uint64_range|exact Hrest|].
    rewrite E. eexists. cbn [cut_more]. f_equal.
    rewrite uint64_uint64_add, sum_sizes_cons. cbn [fst snd].
    f_equal. lia.
Qed.

(** A key is read outside the block exactly when the second loop ends in
    an access outside it. *)
Lemma cut_fields_key_outside (allocates : Z -> bool) (buf : bytestring)
  (sizes : list (Z * Z)) :
  forall p,
    Forall size_ok sizes -> 0 <= p ->
    (cut_fields allocates buf p sizes = key_outside
     <-> key_read_outside allocates buf p sizes = true).
Proof.
  induction sizes as [|[ks vs] sizes IH]; intros p Hok Hp.
  - simpl. split; discriminate.
  - inversion Hok as [|? ? [Hk Hv] Hok']; subst. cbn [fst snd] in Hk, Hv.
    cbn [cut_fields key_read_outside].
    destruct (string_refused allocates ks); [split; discriminate|].
    rewrite uint64_add_uint64.
    replace (p + (ks + vs)) with (p + ks + vs) by lia.
    specialize (IH (uint64 (p + ks + vs)) Hok'
                   (proj1 (uint64_range (p + ks + vs)))).
    unfold slice.
    destruct (Z.eqb_spec ks 0) as [E|E]; cbn [orb].
    + rewrite <- IH.
      destruct (cut_fields allocates buf (uint64 (p + ks + vs)) sizes);
        cbn [cut_more]; split; (discriminate || reflexivity).
    + destruct (Z.leb_spec 0 p); [|lia]. destruct (Z.leb_spec 0 ks); [|lia].
      destruct (Z.leb_spec (p + ks) (len buf)); cbn [andb].
      * rewrite <- IH.
        destruct (cut_fields allocates buf (uint64 (p + ks + vs)) sizes);
          cbn [cut_more]; split; (discriminate || reflexivity).
      * split; reflexivity.
Qed.

(** With keys that [std::string] does not refuse, the keys are all inside
    the block or one is read outside it. *)
Lemma keys_inside_or_outside (allocates : Z -> bool) (buf : bytestring)
  (sizes : list (Z * Z)) :
  forall p,
    Forall (fun fs => string_refused allocates (fst fs) = None) sizes ->
    keys_inside allocates buf p sizes
    = negb (key_read_outside allocates buf p sizes).
Proof.
  induction sizes as [|[ks vs] sizes IH]; intros p Hok; [reflexivity|].
  inversion Hok as [|? ? Hk Hok']; subst. cbn [fst] in Hk.
  cbn [keys_inside key_read_outside]. rewrite Hk.
  destruct ((ks =? 0) || (p + ks <=? len buf)); cbn [andb];
    [apply IH; assumption|reflexivity].
Qed.

(** Where all fields are cut, no key was refused and every key was inside
    the block. *)
Lemma keys_inside_cut_all (allocates : Z -> bool) (buf : bytestring)
  (sizes : list (Z * Z)) :
  forall p kvs p',
    0 <= p ->
    cut_fields allocates buf p sizes = cut_all kvs p' ->
    keys_inside allocates buf p sizes = true.
Proof.
  induction sizes as [|[ks vs] sizes IH]; intros p kvs p' Hp Hcut;
    [reflexivity|].
  cbn [cut_fields keys_inside] in *.
  destruct (string_refused allocates ks); [discriminate|].
  rewrite uint64_add_uint64 in Hcut.
  replace (p + (ks + vs)) with (p + ks + vs) in Hcut by lia.
  assert (Hkey : (ks =? 0) || (p + ks <=? len buf) = true).
  { unfold slice in Hcut. destruct (ks =? 0); [reflexivity|].
    destruct (p + ks <=? len buf); [reflexivity|].
    rewrite andb_false_r in Hcut. discriminate. }
  rewrite Hkey. cbn [andb].
  destruct (slice buf p ks) as [k|]; [|discriminate].
  destruct (cut_fields allocates buf (uint64 (p + ks + vs)) sizes)
    as [kvs' q| |e kvs'] eqn:Ec; try discriminate.
  apply (IH _ _ _ (proj1 (uint64_range _)) Ec).
Qed.

Lemma announced_sizes_ok (host : endianness) (buf : bytestring)
  (sizes : list (Z * Z)) :
  announced_sizes host buf = Some sizes -> Forall size_ok sizes.
Proof.
  unfold announced_sizes.
  destruct (announced_fields host buf) as [n|]; [|discriminate].
  destruct (8 + 16 * n <=? len buf); [|discriminate].
  intros E. injection E as <-. apply Forall_map, Forall_forall.
  intros i _. split; apply unwire64_range.
Qed.

(** The decoding block leaves the block exactly when it reads outside
    it. *)
Lemma decode_out_of_bounds_iff (host : endianness) (allocates : Z -> bool)
  (data : bytestring) (n : Z) (c : SimpleSocketConnection) :
  decode_request_data host allocates data n c = OutOfBounds
  <-> reads_outside host allocates data = true.
Proof.
  rewrite decode_request_data_spec. unfold reads_outside.
  destruct (announced_sizes host data) as [sizes|] eqn:Es; [|tauto].
  pose proof (announced_sizes_ok host data sizes Es) as Hok.
  pose proof (len_nonneg sizes) as Hl.
  rewrite <- (cut_fields_key_outside allocates data sizes
                (8 + 16 * len sizes) Hok) by lia.
  destruct (cut_fields allocates data (8 + 16 * len sizes) sizes)
    as [kvs p| |e kvs].
  - destruct (n =? p); split; discriminate.
  - tauto.
  - split; discriminate.
Qed.

(** A block that holds all that it announces is not read outside. *)
Lemma fits_reads_inside (host : endianness) (allocates : Z -> bool)
  (data : bytestring) :
  len data < kMaxRequestDataLength -> fits host data = true ->
  reads_outside host allocates data = false.
Proof.
  intros Hbuf. unfold fits, announced_end, reads_outside.
  destruct (announced_sizes host data) as [sizes|] eqn:Es; [|discriminate].
  pose proof (announced_sizes_ok host data sizes Es) as Hok.
  pose proof (len_nonneg sizes) as Hl.
  intros Hin. apply Z.leb_le in Hin.
  destruct (cut_fields_inside allocates data sizes (8 + 16 * len sizes) Hok)
    as (kvs & E & _); [lia|lia|lia|].
  destruct (key_read_outside allocates data (8 + 16 * len sizes) sizes) eqn:Ek;
    [|reflexivity].
  apply (cut_fields_key_outside allocates data sizes (8 + 16 * len sizes) Hok)
    in Ek; [|lia].
  congruence.
Qed.

(** ** Decoding what the encoder sends *)

Lemma skipn_len_app {A : Type} (pre post : list A) :
  skipn (Z.to_nat (len pre)) (pre ++ post) = post.
Proof.
  unfold len. rewrite Nat2Z.id, skipn_app, skipn_all, Nat.sub_diag.
  reflexivity.
Qed.

Lemma firstn_len_app {A : Type} (pre post : list A) :
  firstn (Z.to_nat (len pre)) (pre ++ post) = pre.
Proof.
  unfold len. rewrite Nat2Z.id, firstn_app, firstn_all, Nat.sub_diag.
  simpl. apply app_nil_r.
Qed.

Lemma uint64_at_app (host : endianness) (pre post : bytestring) (x : Z) :
  uint64_at host (pre ++ wire64 host x ++ post) (len pre) = uint64 x.
Proof.
  unfold uint64_at. rewrite skipn_len_app.
  change 8%nat with (Z.to_nat 8). rewrite <- (wire64_len host x).
  rewrite firstn_len_app. apply unwire64_wire64.
Qed.

Lemma size_table_len (host : endianness) (sizes : list (Z * Z)) :
  len (size_table host sizes) = 16 * len sizes.
Proof.
  induction sizes as [|[k v] sizes IH]; [reflexivity|].
  unfold size_table in *. cbn [flat_map fst snd].
  rewrite !len_app, !wire64_len, IH, len_cons. lia.
Qed.

Lemma size_table_entries (host : endianness) (sizes : list (Z * Z))
  (post : bytestring) :
  forall (pre : bytestring) (j : nat),
    Forall size_ok sizes ->
    len pre = 8 + 16 * Z.of_nat j ->
    map (fun i => (uint64_at host (pre ++ size_table host sizes ++ post)
                             (8 + 16 * Z.of_nat i),
                   uint64_at host (pre ++ size_table host sizes ++ post)
                             (16 + 16 * Z.of_nat i)))
        (seq j (length sizes))
    = sizes.
Proof.
  induction sizes as [|[k v] sizes IH]; intros pre j Hok Hpre;
    [reflexivity|].
  inversion Hok as [|? ? [Hk Hv] Hok']; subst. cbn [fst snd] in Hk, Hv.
  cbn [length seq map]. unfold size_table. cbn [flat_map fst snd].
  fold (size_table host sizes). f_equal.
  - f_equal.
    + rewrite <- Hpre, <- !app_assoc, uint64_at_app. now apply uint64_small.
    + replace (16 + 16 * Z.of_nat j) with (len (pre ++ wire64 host k))
        by (rewrite len_app, wire64_len; lia).
      rewrite <- !app_assoc.
      rewrite (app_assoc pre (wire64 host k)), uint64_at_app.
      now apply uint64_small.
  - specialize (IH (pre ++ wire64 host k ++ wire64 host v) (S j) Hok').
    rewrite <- !app_assoc in IH |- *. apply IH.
    rewrite !len_app, !wire64_len. lia.
Qed.

Lemma announced_sizes_sent (host : endianness) (sizes : list (Z * Z))
  (post : bytestring) :
  Forall size_ok sizes -> len sizes < 2 ^ 64 ->
  announced_sizes host
    (wire64 host (len sizes) ++ size_table host sizes ++ post)
  = Some sizes.
Proof.
  intros Hok Hn. pose proof (len_nonneg sizes) as H0.
  pose proof (len_nonneg post) as Hp.
  set (buf := wire64 host (len sizes) ++ size_table host sizes ++ post).
  assert (Hlen : len buf = 8 + 16 * len sizes + len post)
    by (unfold buf; rewrite !len_app, wire64_len, size_table_len; lia).
  assert (Hnf : uint64_at host buf 0 = len sizes).
  { unfold buf.
    pose proof (uint64_at_app host [] (size_table host sizes ++ post)
                  (len sizes)) as E.
    cbn [app] in E. change (len (@nil byte)) with 0 in E. rewrite E.
    apply uint64_small. lia. }
  unfold announced_sizes, announced_fields.
  destruct (Z.leb_spec 8 (len buf)); [|lia]. rewrite Hnf.
  destruct (Z.leb_spec (8 + 16 * len sizes) (len buf)); [|lia].
  f_equal.
  replace (Z.to_nat (len sizes)) with (length sizes) by (unfold len; lia).
  apply (size_table_entries host sizes post (wire64 host (len sizes)) 0 Hok).
  now rewrite wire64_len.
Qed.

Lemma slice_app (pre k post : bytestring) :
  slice (pre ++ k ++ post) (len pre) (len k) = Some k.
Proof.
  unfold slice. destruct (Z.eqb_spec (len k) 0) as [E|E].
  - destruct k; [reflexivity|]. rewrite len_cons in E.
    pose proof (len_nonneg k). lia.
  - pose proof (len_nonneg pre). pose proof (len_nonneg k).
    pose proof (len_nonneg post).
    destruct (Z.leb_spec 0 (len pre)); [|lia].
    destruct (Z.leb_spec 0 (len k)); [|lia].
    destruct (Z.leb_spec (len pre + len k) (len (pre ++ k ++ post)));
      [|rewrite !len_app in *; lia].
    cbn [andb]. now rewrite skipn_len_app, firstn_len_app.
Qed.

Lemma piece_app (pre v post : bytestring) :
  piece (pre ++ v ++ post) (len pre) (len v) = v.
Proof.
  pose proof (len_nonneg pre). pose proof (len_nonneg v).
  pose proof (len_nonneg post).
  rewrite piece_inside by (rewrite ?len_app; lia).
  now rewrite skipn_len_app, firstn_len_app.
Qed.

Lemma cut_fields_payload (allocates : Z -> bool)
  (fs : list (list byte * list byte)) (post : bytestring) :
  forall pre,
    len pre + sum_sizes (sizes_of fs) < kMaxRequestDataLength ->
    cut_fields allocates (pre ++ payload fs ++ post) (len pre) (sizes_of fs)
    = cut_all fs (len pre + sum_sizes (sizes_of fs)).
Proof.
  assert (Hmax : kMaxRequestDataLength < 2 ^ 62) by reflexivity.
  induction fs as [|[k v] fs IH]; intros pre Hsum.
  - simpl. now rewrite Z.add_0_r.
  - cbn [sizes_of map] in Hsum. rewrite sum_sizes_cons in Hsum.
    cbn [fst snd] in Hsum. fold (sizes_of fs) in Hsum.
    pose proof (sum_sizes_nonneg fs) as Hs. pose proof (len_nonneg pre) as Hp.
    pose proof (len_nonneg k) as Hk. pose proof (len_nonneg v) as Hv.
    cbn [sizes_of map fst snd cut_fields]. fold (sizes_of fs).
    rewrite string_accepted by lia.
    unfold payload. cbn [flat_map fst snd].
    fold (payload fs). rewrite <- !app_assoc.
    rewrite slice_app.
    rewrite (uint64_small (len k + len v)), (uint64_small (len pre + len k)),
      (uint64_small (len pre + (len k + len v))) by lia.
    replace (len pre + len k) with (len (pre ++ k)) by apply len_app.
    rewrite (app_assoc pre k), piece_app.
    replace (len pre + (len k + len v)) with (len ((pre ++ k) ++ v))
      by (rewrite !len_app; lia).
    rewrite (app_assoc (pre ++ k) v), (IH ((pre ++ k) ++ v))
      by (rewrite !len_app; lia).
    cbn [cut_more]. f_equal.
    rewrite !len_app, sum_sizes_cons. cbn [fst snd]. lia.
Qed.

Lemma setField_fresh (key value : list byte) (r : SimpleSocketContent) :
  ~ In key (map fst r) -> setField key value r = r ++ [(key, value)].
Proof.
  induction r as [|[k v] r IH]; intros Hnew; [reflexivity|].
  cbn [setField]. destruct (list_eq_dec Byte.byte_eq_dec key k) as [E|E].
  - exfalso. apply Hnew. left. now symmetry.
  - cbn [app]. rewrite IH; [reflexivity|]. intros Hin. apply Hnew. now right.
Qed.

Lemma set_fields_fresh (kvs : list (list byte * list byte)) :
  forall r : SimpleSocketContent,
    NoDup (map fst (r ++ kvs)) -> set_fields kvs r = r ++ kvs.
Proof.
  induction kvs as [|[k v] kvs IH]; intros r Hnd.
  - simpl. now rewrite app_nil_r.
  - unfold set_fields. cbn [fold_left fst snd]. fold (set_fields kvs).
    rewrite map_app in Hnd. cbn [map fst] in Hnd.
    apply NoDup_remove in Hnd as Hnd'. destruct Hnd' as [_ Hnew].
    rewrite setField_fresh by (intros Hin; apply Hnew, in_or_app; now left).
    rewrite IH; rewrite <- app_assoc; [reflexivity|].
    cbn [app]. now rewrite map_app.
Qed.

(** [setField] keeps keys unique, so every Record built from the empty
    one has unique keys. *)
Lemma setField_keys (key value : list byte) (r : SimpleSocketContent) :
  forall k, In k (map fst (setField key value r))
            <-> k = key \/ In k (map fst r).
Proof.
  induction r as [|[k0 v0] r IH]; intros k; cbn [setField map fst In].
  - intuition congruence.
  - destruct (list_eq_dec Byte.byte_eq_dec key k0) as [E|E];
      cbn [map fst In]; [subst; intuition congruence|].
    rewrite IH. intuition congruence.
Qed.

Lemma setField_NoDup (key value : list byte) (r : SimpleSocketContent) :
  NoDup (map fst (fields r)) -> NoDup (map fst (fields (setField key value r))).
Proof.
  unfold fields. induction r as [|[k0 v0] r IH]; intros Hnd.
  - simpl. constructor; [intros []|constructor].
  - cbn [setField]. inversion Hnd as [|? ? Hnew Hnd']; subst.
    destruct (list_eq_dec Byte.byte_eq_dec key k0) as [E|E]; cbn [map fst].
    + subst. now constructor.
    + constructor; [|now apply IH].
      rewrite setField_keys. intros [->|Hin]; [now apply E|now apply Hnew].
Qed.

(** ** The constructor *)

Ltac simpl_connection :=
  cbn [destroy hasError getErrorMessage getRequest fresh
       socket_fd_ request_data_length_ request_data_ request_ error_message_
       set_error_message_ set_request_ set_request_data_
       set_request_data_length_ set_incoming send with_socket
       incoming outgoing shut_down closed sys_close sys_shutdown] in *.

Lemma construct_unfold (host : endianness) (allocates : Z -> bool)
  (socket_fd : socket) :
  construct host allocates socket_fd
  = match receiveRequest host allocates (fresh socket_fd) with
    | Returns a c => Returns a c
    | Throws e c => Returns tt (set_error_message_ (Some (what e)) c)
    | Aborts => Aborts
    | OutOfBounds => OutOfBounds
    end.
Proof. reflexivity. Qed.

Lemma readable_header (host : endianness) (n : Z) (rest : bytestring) :
  firstn 8 (wire64 host n ++ rest) = wire64 host n
  /\ skipn 8 (wire64 host n ++ rest) = rest.
Proof.
  change 8%nat with (Z.to_nat 8). rewrite <- (wire64_len host n).
  split; [apply firstn_len_app|apply skipn_len_app].
Qed.

(** A whole message on the socket reaches the decoding block. *)
Lemma receiveRequest_delivered (host : endianness) (allocates : Z -> bool)
  (c : SimpleSocketConnection) (data extra : bytestring) :
  readable (incoming (socket_fd_ c)) = wire64 host (len data) ++ data ++ extra ->
  len data < kMaxRequestDataLength ->
  exists rest,
    receiveRequest host allocates c
    = decode_request_data host allocates data (len data)
        (set_request_data_ (Some (holding data))
           (set_request_data_length_ (len data) (set_incoming rest c))).
Proof.
  intros Hstream Hmax. pose proof (len_nonneg data) as H0.
  pose proof (len_nonneg extra) as He.
  assert (Hk : kMaxRequestDataLength < 2 ^ 64) by reflexivity.
  destruct (readable_header host (len data) (data ++ extra)) as [Hf Hs].
  assert (Hn : unwire64 host (firstn 8 (readable (incoming (socket_fd_ c))))
               = len data).
  { rewrite Hstream, Hf, unwire64_wire64. apply uint64_small. lia. }
  assert (Hlen : len (readable (incoming (socket_fd_ c)))
                 = 8 + len data + len extra)
    by (rewrite Hstream, !len_app, wire64_len; lia).
  assert (Hd : firstn (Z.to_nat (len data))
                 (skipn 8 (readable (incoming (socket_fd_ c)))) = data)
    by (rewrite Hstream, Hs; apply firstn_len_app).
  destruct (receiveRequest_cases host allocates c) as
    [rest Hc|rest n Hc Hn' Hc'|rest n Hc Hn' Hc' Hc''
    |rest n data' Hc Hn' Hc' Hc'' Hd'];
    try (rewrite Hn in Hn'; subst n); try lia.
  exists rest. rewrite Hd in Hd'. subst data'. reflexivity.
Qed.

Lemma construct_delivered (host : endianness) (allocates : Z -> bool)
  (socket_fd : socket) (data extra : bytestring) :
  readable (incoming socket_fd) = wire64 host (len data) ++ data ++ extra ->
  len data < kMaxRequestDataLength ->
  exists rest,
    construct host allocates socket_fd
    = match decode_request_data host allocates data (len data)
              (set_request_data_ (Some (holding data))
                 (set_request_data_length_ (len data)
                    (set_incoming rest (fresh socket_fd)))) with
      | Returns a c => Returns a c
      | Throws e c => Returns tt (set_error_message_ (Some (what e)) c)
      | Aborts => Aborts
      | OutOfBounds => OutOfBounds
      end.
Proof.
  intros Hstream Hmax.
  destruct (receiveRequest_delivered host allocates (fresh socket_fd) data extra
              Hstream Hmax) as [rest E].
  exists rest. now rewrite construct_unfold, E.
Qed.

Lemma payload_len (fs : list (list byte * list byte)) :
  len (payload fs) = sum_sizes (sizes_of fs).
Proof.
  induction fs as [|[k v] fs IH]; [reflexivity|].
  unfold payload in *. cbn [flat_map fst snd sizes_of map].
  rewrite sum_sizes_cons, !len_app, IH. cbn [fst snd]. unfold sizes_of. lia.
Qed.

Lemma body_len (host : endianness) (r : SimpleSocketContent) :
  len (body host r) = total_length r.
Proof.
  unfold body, total_length.
  rewrite !len_app, wire64_len, size_table_len, payload_len, len_sizes_of.
  lia.
Qed.

Lemma sizes_of_ok (fs : list (list byte * list byte)) :
  sum_sizes (sizes_of fs) < 2 ^ 64 -> Forall size_ok (sizes_of fs).
Proof.
  induction fs as [|[k v] fs IH]; intros Hsum; [constructor|].
  cbn [sizes_of map] in *. rewrite sum_sizes_cons in Hsum.
  cbn [fst snd] in Hsum. fold (sizes_of fs) in *.
  pose proof (sum_sizes_nonneg fs). pose proof (len_nonneg k).
  pose proof (len_nonneg v).
  constructor; [split; cbn [fst snd]; lia|apply IH; lia].
Qed.

(** The decoding block on the body of a Record's message. *)
Lemma decode_body (host : endianness) (allocates : Z -> bool)
  (r : SimpleSocketContent) (c : SimpleSocketConnection) :
  total_length r < kMaxRequestDataLength ->
  decode_request_data host allocates (body host r) (total_length r) c
  = Returns tt (set_request_ (set_fields (fields r) (request_ c)) c).
Proof.
  intros Hfit. rewrite decode_request_data_spec.
  assert (Hk : kMaxRequestDataLength < 2 ^ 62) by reflexivity.
  set (fs := fields r) in *.
  pose proof (sum_sizes_nonneg fs) as Hs. pose proof (len_nonneg fs) as Hl.
  assert (Htl : total_length r = 8 + 16 * len fs + sum_sizes (sizes_of fs))
    by reflexivity.
  assert (Hok : Forall size_ok (sizes_of fs)) by (apply sizes_of_ok; lia).
  unfold body. fold fs. rewrite <- (len_sizes_of fs) at 1.
  rewrite announced_sizes_sent by (rewrite ?len_sizes_of; assumption || lia).
  rewrite len_sizes_of.
  replace (8 + 16 * len fs)
    with (len (wire64 host (len fs) ++ size_table host (sizes_of fs)))
    by (rewrite len_app, wire64_len, size_table_len, len_sizes_of; lia).
  rewrite <- (app_nil_r (payload fs)), app_assoc.
  rewrite cut_fields_payload
    by (rewrite len_app, wire64_len, size_table_len, len_sizes_of; lia).
  rewrite len_app, wire64_len, size_table_len, len_sizes_of, <- Htl.
  now rewrite Z.eqb_refl.
Qed.

Lemma construct_roundtrip (host : endianness) (allocates : Z -> bool)
  (r : SimpleSocketContent) (socket_fd : socket) (extra : bytestring) :
  NoDup (map fst (fields r)) ->
  total_length r < kMaxRequestDataLength ->
  readable (incoming socket_fd) = frame host r ++ extra ->
  exists rest,
    construct host allocates socket_fd
    = Returns tt
        (set_request_ r
           (set_request_data_ (Some (holding (body host r)))
              (set_request_data_length_ (total_length r)
                 (set_incoming rest (fresh socket_fd))))).
Proof.
  intros Hnd Hmax Hstream.
  assert (Hk : kMaxRequestDataLength < 2 ^ 62) by reflexivity.
  unfold frame in Hstream. rewrite <- app_assoc in Hstream.
  rewrite <- (body_len host r) in Hstream, Hmax.
  destruct (construct_delivered host allocates socket_fd (body host r) extra
              Hstream Hmax) as [rest E].
  exists rest. rewrite E, body_len.
  rewrite decode_body by (rewrite body_len in Hmax; lia).
  cbn [request_ set_request_data_ set_request_data_length_ set_incoming
       with_socket fresh].
  rewrite (set_fields_fresh (fields r) empty_content Hnd). reflexivity.
Qed.

(** * Properties of the transport *)

(** ** Byte order (C7) *)

(** The two conversions undo each other on either kind of host. *)
Lemma Htonll_Ntohll (host : endianness) (x : Z) :
  Htonll host (Ntohll host x) = uint64 x.
Proof. rewrite <- Ntohll_Htonll_eq. apply Ntohll_Htonll. Qed.

(** C7: on a big-endian host, where [htonl] and [ntohl] are the identity,
    [Htonll] exchanges the two 32-bit halves of its argument, so the
    value 1 leaves a big-endian host as 00 00 00 01 00 00 00 00, which is
    neither its network-order encoding 00 00 00 00 00 00 00 01 nor what a
    little-endian host sends for it. *)
Theorem Htonll_big_endian_swaps_words :
  Htonll BigEndian 1 = 2 ^ 32
  /\ wire64 BigEndian 1 = [x00; x00; x00; x01; x00; x00; x00; x00]
  /\ be_bytes 8 1 = [x00; x00; x00; x00; x00; x00; x00; x01]
  /\ wire64 LittleEndian 1 = be_bytes 8 1
  /\ wire64 BigEndian 1 <> wire64 LittleEndian 1.
Proof.
  repeat split; try reflexivity. vm_compute. discriminate.
Qed.

(** ** The encoder (C2) *)

(** C2: [sendResponse] appends to what the socket has sent exactly one
    message: the length field for 8 + 16 * num_fields + the sizes of all
    keys and values, then the field for num_fields, then one pair of size
    fields per Record field, then each key followed by its value, the
    payload in the order of the size table.  A peer of the same byte order
    reads the leading field back as that length. *)
Theorem sendResponse_writes_one_frame (host : endianness)
  (response : SimpleSocketContent) (c : SimpleSocketConnection) :
  total_length response < 2 ^ 64 ->
  sendResponse host response c
  = Returns tt
      (send (wire64 host (8 + 16 * len (fields response)
                          + sum_sizes (sizes_of (fields response)))
             ++ wire64 host (len (fields response))
             ++ flat_map (fun it => wire64 host (len (fst it))
                                    ++ wire64 host (len (snd it)))
                         (fields response)
             ++ flat_map (fun it => fst it ++ snd it) (fields response))
            c)
  /\ unwire64 host (firstn 8 (frame host response))
     = 8 + 16 * len (fields response)
       + sum_sizes (sizes_of (fields response)).
Proof.
  intros Hfit. split.
  - rewrite sendResponse_sends by assumption.
    unfold frame, body, total_length, size_table, sizes_of, payload.
    rewrite flat_map_concat_map, map_map, <- flat_map_concat_map.
    reflexivity.
  - unfold frame.
    destruct (readable_header host (total_length response)
                (body host response)) as [-> _].
    rewrite unwire64_wire64. apply uint64_small.
    pose proof (sum_sizes_nonneg (fields response)).
    pose proof (len_nonneg (fields response)).
    unfold total_length in *. lia.
Qed.

Lemma example_content_keys_unique : NoDup (map fst (fields example_content)).
Proof.
  repeat constructor; simpl; intuition discriminate.
Defined.

Lemma sendResponse_writes_one_frame_witness :
  total_length example_content < 2 ^ 64
  /\ unwire64 BigEndian (firstn 8 (frame BigEndian example_content)) = 48.
Proof.
  split; [reflexivity|].
  apply (sendResponse_writes_one_frame BigEndian example_content
           (fresh (idle_socket []))).
  reflexivity.
Defined.

(** ** Encoding, then decoding (C1) *)

(** C1: a Record (its keys unique) whose announced length is below the
    maximum is sent as some bytes, and a constructor that finds these
    bytes on its socket, in whatever segments they arrive and whatever
    follows them, returns without an error and holds the same fields;
    values may be empty or hold any bytes. *)
Theorem encode_then_decode (host : endianness) (allocates : Z -> bool)
  (r : SimpleSocketContent) (sender : SimpleSocketConnection) :
  NoDup (map fst (fields r)) ->
  total_length r < kMaxRequestDataLength ->
  exists sent,
    sendResponse host r sender = Returns tt (send sent sender)
    /\ forall socket_fd extra,
         readable (incoming socket_fd) = sent ++ extra ->
         exists c,
           construct host allocates socket_fd = Returns tt c
           /\ hasError c = false
           /\ fields (getRequest c) = fields r
           /\ forall kv, In kv (fields (getRequest c)) <-> In kv (fields r).
Proof.
  intros Hnd Hmax. exists (frame host r).
  assert (Hk : kMaxRequestDataLength < 2 ^ 64) by reflexivity.
  split; [apply sendResponse_sends; lia|].
  intros socket_fd extra Hstream.
  destruct (construct_roundtrip host allocates r socket_fd extra Hnd Hmax
              Hstream)
    as [rest E].
  eexists. split; [exact E|]. repeat split; auto.
Qed.

Lemma encode_then_decode_witness :
  NoDup (map fst (fields example_content))
  /\ total_length example_content < kMaxRequestDataLength
  /\ exists sent,
       sendResponse LittleEndian example_content (fresh (idle_socket []))
       = Returns tt (send sent (fresh (idle_socket [])))
       /\ exists c,
            construct LittleEndian plenty
              (idle_socket [Segment (firstn 3 sent); Segment (skipn 3 sent)])
            = Returns tt c
            /\ hasError c = false
            /\ fields (getRequest c) = fields example_content.
Proof.
  split; [exact example_content_keys_unique|]. split; [reflexivity|].
  destruct (encode_then_decode LittleEndian plenty example_content
              (fresh (idle_socket [])) example_content_keys_unique
              eq_refl) as [sent [E Hdecode]].
  exists sent. split; [exact E|].
  assert (Hsent : sent = frame LittleEndian example_content)
    by (vm_compute in E; injection E as E; symmetry; exact E).
  destruct (Hdecode (idle_socket [Segment (firstn 3 sent);
                                  Segment (skipn 3 sent)]) [])
    as [c [Hc [Herr [Hfields _]]]].
  { rewrite Hsent. vm_compute. reflexivity. }
  exists c. auto.
Defined.

(** ** The stdout/stderr example (C8) *)

Lemma sendResponse_strings_content (host : endianness) :
  sendResponse_strings host hello [] = sendResponse host stdout_stderr.
Proof. reflexivity. Qed.

Lemma stdout_stderr_keys_unique : NoDup (map fst (fields stdout_stderr)).
Proof.
  repeat constructor; simpl; intuition discriminate.
Qed.

(** C8: the length announced for stdout = "hello\n", stderr = "" is not
    52. *)
Lemma stdout_stderr_length_is_not_52 :
  ~ (exists c,
       sendResponse_strings LittleEndian hello [] (fresh (idle_socket []))
       = Returns tt c
       /\ unwire64 LittleEndian (firstn 8 (outgoing (socket_fd_ c))) = 52).
Proof.
  intros [c [E H]]. vm_compute in E. injection E as <-.
  vm_compute in H. discriminate.
Qed.

(** C8: the two-string form of [sendResponse] with stdout =
    "hello\n" and stderr = "" sends one message of 66 bytes that announces
    the length 58 = 8 + 32 + 18, two fields and the size table
    [(6,6); (6,0)], and a constructor that finds these bytes on its socket
    returns without an error, holding the fields stdout = "hello\n" and
    stderr = "". *)
Theorem stdout_stderr_example (host : endianness) (allocates : Z -> bool)
  (sender : SimpleSocketConnection) :
  exists msg,
    sendResponse_strings host hello [] sender = Returns tt (send msg sender)
    /\ len msg = 66
    /\ unwire64 host (firstn 8 msg) = 58
    /\ 58 = 8 + 32 + 18
    /\ announced_fields host (skipn 8 msg) = Some 2
    /\ announced_sizes host (skipn 8 msg) = Some [(6, 6); (6, 0)]
    /\ forall socket_fd,
         readable (incoming socket_fd) = msg ->
         exists c,
           construct host allocates socket_fd = Returns tt c
           /\ hasError c = false
           /\ fields (getRequest c)
              = [(list_byte_of_string "stdout", hello);
                 (list_byte_of_string "stderr", [])].
Proof.
  exists (frame host stdout_stderr).
  split; [rewrite sendResponse_strings_content; now apply sendResponse_sends|].
  do 5 (split; [destruct host; vm_compute; reflexivity|]).
  intros socket_fd Hstream. rewrite <- (app_nil_r (frame _ _)) in Hstream.
  destruct (construct_roundtrip host allocates stdout_stderr socket_fd []
              stdout_stderr_keys_unique eq_refl Hstream) as [rest E].
  eexists. split; [exact E|]. split; reflexivity.
Qed.

(** ** The bound on the announced length (C3) *)

Lemma decode_returns (host : endianness) (allocates : Z -> bool)
  (data : bytestring) (n : Z) (c c' : SimpleSocketConnection) (u : unit) :
  decode_request_data host allocates data n c = Returns u c' ->
  exists kvs, c' = set_request_ (set_fields kvs (request_ c)) c.
Proof.
  rewrite decode_request_data_spec.
  destruct (announced_sizes host data) as [sizes|]; [|discriminate].
  destruct (cut_fields allocates data (8 + 16 * len sizes) sizes)
    as [kvs p| |e kvs]; [|discriminate..].
  destruct (n =? p); [|discriminate].
  intros E. injection E as _ <-. now exists kvs.
Qed.

(** [std::string] refuses a key with one of two exceptions. *)
Lemma string_refused_cases (allocates : Z -> bool) (n : Z) (e : exception) :
  string_refused allocates n = Some e ->
  (e = string_too_long /\ string_max_size < n)
  \/ (e = bad_alloc /\ kMaxRequestDataLength <= n <= string_max_size
      /\ allocates (n + 1) = false).
Proof.
  unfold string_refused.
  destruct (Z.ltb_spec string_max_size n).
  - intros E. injection E as <-. now left.
  - destruct (Z.leb_spec kMaxRequestDataLength n); cbn [andb];
      [|discriminate].
    destruct (allocates (n + 1)) eqn:Ea; cbn [negb]; [discriminate|].
    intros E. injection E as <-. right. repeat split; assumption || lia.
Qed.

Lemma cut_fields_refused (allocates : Z -> bool) (buf : bytestring)
  (sizes : list (Z * Z)) :
  forall p e kvs,
    cut_fields allocates buf p sizes = key_refused e kvs ->
    e = string_too_long \/ e = bad_alloc.
Proof.
  induction sizes as [|[ks vs] sizes IH]; intros p e kvs; [discriminate|].
  cbn [cut_fields].
  destruct (string_refused allocates ks) as [e'|] eqn:Er.
  - intros E. injection E as <- _.
    destruct (string_refused_cases allocates ks e' Er) as [[-> _]|[-> _]];
      auto.
  - destruct (slice buf p ks); [|discriminate].
    destruct (cut_fields allocates buf (uint64 (p + uint64 (ks + vs))) sizes)
      as [kvs' q| |e' kvs'] eqn:Ec; cbn [cut_more]; try discriminate.
    intros E. injection E as <- _. exact (IH _ _ _ Ec).
Qed.

(** The decoding block throws only at a key that [std::string] refuses,
    the fields before that key being set. *)
Lemma decode_throws (host : endianness) (allocates : Z -> bool)
  (data : bytestring) (n : Z) (c c' : SimpleSocketConnection)
  (e : exception) :
  decode_request_data host allocates data n c = Throws e c' ->
  (e = string_too_long \/ e = bad_alloc)
  /\ exists sizes kvs,
       announced_sizes host data = Some sizes
       /\ cut_fields allocates data (8 + 16 * len sizes) sizes
          = key_refused e kvs
       /\ c' = set_request_ (set_fields kvs (request_ c)) c.
Proof.
  rewrite decode_request_data_spec.
  destruct (announced_sizes host data) as [sizes|]; [|discriminate].
  destruct (cut_fields allocates data (8 + 16 * len sizes) sizes)
    as [kvs p| |e' kvs] eqn:Ec;
    [destruct (n =? p); discriminate|discriminate|].
  intros E. injection E as <- <-.
  split; [exact (cut_fields_refused _ _ _ _ _ _ Ec)|].
  exists sizes, kvs. auto.
Qed.

Lemma caught_or_passed {St : Type} (r : outcome St unit)
  (handler : exception -> St -> St) (c : St) :
  match r with
  | Returns a s => Returns a s
  | Throws e s => Returns tt (handler e s)
  | Aborts => Aborts
  | OutOfBounds => OutOfBounds
  end = Returns tt c ->
  (exists e s, r = Throws e s /\ c = handler e s) \/ r = Returns tt c.
Proof.
  destruct r as [[] s|e s| |]; intros E; try discriminate.
  - right. exact E.
  - left. exists e, s. injection E as <-. auto.
Qed.

(** C3: when the announced length is at or above [kMaxRequestDataLength]
    (0x10000000, 256 MiB) the constructor returns with the overflow
    message stored and [request_data_] still null, nothing having been
    allocated or decoded; when it is below, a constructor that returns
    does not hold that message and has allocated the block. *)
Theorem oversized_request_rejected (host : endianness) (allocates : Z -> bool)
  (socket_fd : socket) :
  8 <= len (readable (incoming socket_fd)) ->
  let n := unwire64 host (firstn 8 (readable (incoming socket_fd))) in
  kMaxRequestDataLength = 256 * 1024 * 1024
  /\ (kMaxRequestDataLength <= n ->
      exists c,
        construct host allocates socket_fd = Returns tt c
        /\ hasError c = true
        /\ getErrorMessage c
           = ("Overflow request data length = " ++ to_string n)%string
        /\ request_data_ c = None
        /\ getRequest c = empty_content)
  /\ (n < kMaxRequestDataLength ->
      forall c,
        construct host allocates socket_fd = Returns tt c ->
        request_data_ c <> None
        /\ forall m, error_message_ c <> Some (what (overflow_error m))).
Proof.
  intros H8 n. split; [reflexivity|].
  rewrite construct_unfold.
  destruct (receiveRequest_cases host allocates (fresh socket_fd)) as
    [rest Hc|rest n' Hc Hn' Hc'|rest n' Hc Hn' Hc' Hc''
    |rest n' data' Hc Hn' Hc' Hc'' Hd'];
    cbn [fresh socket_fd_] in *; try (fold n in Hn'; subst n'); try lia.
  - split; [|lia]. intros _. eexists. split; [reflexivity|].
    repeat split.
  - split; [lia|]. intros _ c E. injection E as <-.
    split; [discriminate|]. intros m. cbn. discriminate.
  - split; [lia|]. intros _ c E.
    apply (caught_or_passed _ (fun e => set_error_message_ (Some (what e))))
      in E.
    destruct E as [[e [s [E ->]]]|E].
    + apply decode_throws in E.
      destruct E as [[-> | ->] (sizes & kvs & _ & _ & ->)];
        (split; [discriminate|]; intros m; cbn; discriminate).
    + apply decode_returns in E. destruct E as [kvs ->].
      split; [discriminate|]. intros m. discriminate.
Qed.

Lemma oversized_request_rejected_witness :
  8 <= len (readable [Segment (be_bytes 8 0x10000000)])
  /\ exists c,
       construct LittleEndian plenty
         (idle_socket [Segment (be_bytes 8 0x10000000)])
       = Returns tt c
       /\ hasError c = true
       /\ getErrorMessage c = "Overflow request data length = 268435456"%string
       /\ request_data_ c = None
       /\ getRequest c = empty_content.
Proof.
  assert (H8 : 8 <= len (readable [Segment (be_bytes 8 0x10000000)]))
    by (vm_compute; discriminate).
  split; [exact H8|].
  destruct (oversized_request_rejected LittleEndian plenty
              (idle_socket [Segment (be_bytes 8 0x10000000)]) H8)
    as [_ [Hover _]].
  apply Hover. vm_compute. discriminate.
Defined.

(** ** The receive loop and a connection cut short (C5) *)

(** C5: [receiveData] goes on reading until it has the [bytes] bytes asked
    for, however they arrive, and then returns exactly these; when fewer
    are readable, so that a read gives zero or less before the count is
    reached, it throws its receive error and returns nothing.  A
    constructor whose socket is cut short inside the length field or
    inside the body stores that error. *)
Theorem receiveData_all_or_error (host : endianness) (allocates : Z -> bool)
  (bytes : Z) (c : SimpleSocketConnection) :
  0 <= bytes < 2 ^ 64 ->
  let stream := readable (incoming (socket_fd_ c)) in
  (bytes <= len stream ->
   exists rest,
     receiveData bytes c
     = Returns (firstn (Z.to_nat bytes) stream) (set_incoming rest c)
     /\ len (firstn (Z.to_nat bytes) stream) = bytes
     /\ readable rest = skipn (Z.to_nat bytes) stream)
  /\ (len stream < bytes ->
      exists rest,
        receiveData bytes c = Throws receive_error (set_incoming rest c))
  /\ (len stream < 8
      \/ (unwire64 host (firstn 8 stream) < kMaxRequestDataLength
          /\ len stream < 8 + unwire64 host (firstn 8 stream)) ->
      exists c',
        construct host allocates (socket_fd_ c) = Returns tt c'
        /\ hasError c' = true
        /\ getErrorMessage c' = what receive_error
        /\ getRequest c' = empty_content).
Proof.
  intros Hb stream. split; [|split].
  - intros Hlen.
    destruct (receiveData_enough _ bytes c eq_refl Hb Hlen) as [rest [E Hr]].
    exists rest. split; [exact E|]. split; [|exact Hr].
    apply firstn_len. lia.
  - intros Hlen. exact (receiveData_short _ bytes c eq_refl Hb Hlen).
  - intros Hcut. rewrite construct_unfold.
    pose proof (unwire64_range host (firstn 8 stream)) as Hn.
    subst stream.
    destruct (receiveRequest_cases host allocates (fresh (socket_fd_ c))) as
      [rest Hc|rest n' Hc Hn' Hc'|rest n' Hc Hn' Hc' Hc''
      |rest n' data' Hc Hn' Hc' Hc'' Hd'];
      cbn [fresh socket_fd_] in *; try subst n';
      try (exfalso; lia);
      (eexists; split; [reflexivity|]; repeat split).
Qed.

Lemma receiveData_all_or_error_witness :
  0 <= 5 < 2 ^ 64
  /\ exists rest,
       receiveData 5
         (fresh (idle_socket [Segment [x01; x02]; Segment [x03];
                              Segment [x04; x05; x06]]))
       = Returns [x01; x02; x03; x04; x05]
           (set_incoming rest
              (fresh (idle_socket [Segment [x01; x02]; Segment [x03];
                                   Segment [x04; x05; x06]]))).
Proof.
  assert (Hb : 0 <= 5 < 2 ^ 64) by lia.
  split; [exact Hb|].
  destruct (receiveData_all_or_error LittleEndian plenty 5
              (fresh (idle_socket [Segment [x01; x02]; Segment [x03];
                                   Segment [x04; x05; x06]])) Hb)
    as [Henough _].
  destruct Henough as [rest [E _]]; [vm_compute; discriminate|].
  exists rest. exact E.
Defined.

(** ** Teardown (C6) *)

(** C6: for a constructor that returns on an open socket, the destructor
    shuts the socket down and closes it exactly when [request_data_] is
    not null, that is exactly when a length below the maximum was read,
    whatever became of the body afterwards; after the oversized-length
    rejection, and when no length arrived, the socket is left open. *)
Theorem socket_closed_iff_buffer_allocated (host : endianness)
  (allocates : Z -> bool) (socket_fd : socket) (c : SimpleSocketConnection) :
  shut_down socket_fd = false ->
  closed socket_fd = false ->
  construct host allocates socket_fd = Returns tt c ->
  let stream := readable (incoming socket_fd) in
  (closed (socket_fd_ (destroy c)) = true <-> request_data_ c <> None)
  /\ (shut_down (socket_fd_ (destroy c)) = true <-> request_data_ c <> None)
  /\ (request_data_ c <> None
      <-> 8 <= len stream
          /\ unwire64 host (firstn 8 stream) < kMaxRequestDataLength)
  /\ (8 <= len stream ->
      kMaxRequestDataLength <= unwire64 host (firstn 8 stream) ->
      closed (socket_fd_ (destroy c)) = false
      /\ shut_down (socket_fd_ (destroy c)) = false)
  /\ request_data_ (destroy c) = None.
Proof.
  intros Hshut Hclosed E stream.
  rewrite construct_unfold in E.
  pose proof (unwire64_range host (firstn 8 stream)) as Hn.
  subst stream. revert E.
  destruct (receiveRequest_cases host allocates (fresh socket_fd)) as
    [rest Hc|rest n' Hc Hn' Hc'|rest n' Hc Hn' Hc' Hc''
    |rest n' data' Hc Hn' Hc' Hc'' Hd'];
    intros E; cbn [fresh socket_fd_] in *; try subst n'.
  1-3: injection E as <-; simpl_connection;
    rewrite ?Hshut, ?Hclosed; intuition (discriminate || lia).
  apply (caught_or_passed _ (fun e => set_error_message_ (Some (what e))))
    in E.
  destruct E as [[e [s [E ->]]]|E].
  { apply decode_throws in E.
    destruct E as [_ (sizes & kvs & _ & _ & ->)].
    simpl_connection. intuition (discriminate || lia). }
  apply decode_returns in E. destruct E as [kvs ->].
  simpl_connection. intuition (discriminate || lia).
Qed.

Lemma socket_closed_iff_buffer_allocated_witness :
  shut_down (idle_socket [Segment (frame LittleEndian example_content)])
  = false
  /\ closed (idle_socket [Segment (frame LittleEndian example_content)])
     = false
  /\ exists c,
       construct LittleEndian plenty
         (idle_socket [Segment (frame LittleEndian example_content)])
       = Returns tt c
       /\ closed (socket_fd_ (destroy c)) = true
       /\ shut_down (socket_fd_ (destroy c)) = true.
Proof.
  split; [reflexivity|]. split; [reflexivity|].
  destruct (construct LittleEndian plenty
              (idle_socket [Segment (frame LittleEndian example_content)]))
    as [[] c|e c| |] eqn:E;
    [|vm_compute in E; discriminate..].
  exists c. split; [reflexivity|].
  destruct (socket_closed_iff_buffer_allocated LittleEndian plenty
              (idle_socket [Segment (frame LittleEndian example_content)]) c
              eq_refl eq_refl E) as [Hclosed [Hshut [Halloc _]]].
  assert (Hbuf : request_data_ c <> None)
    by (apply Halloc; split; vm_compute; [discriminate|reflexivity]).
  split; [apply Hclosed|apply Hshut]; exact Hbuf.
Defined.

(** An announced length of 0x10000000: nothing is allocated and the
    destructor leaves the socket open. *)
Example oversized_request_leaks_socket :
  match construct LittleEndian plenty
          (idle_socket [Segment (be_bytes 8 0x10000000)]) with
  | Returns _ c =>
      request_data_ c = None
      /\ closed (socket_fd_ (destroy c)) = false
      /\ shut_down (socket_fd_ (destroy c)) = false
  | _ => False
  end.
Proof. vm_compute. repeat split. Qed.

(** ** Errors at the constructor (C9) *)

(** C9: whatever arrives on the socket, no exception leaves the
    constructor; an exception thrown by [receiveRequest] becomes the
    stored message, [hasError] turns true, and the request is as
    [receiveRequest] left it when it threw: empty when the length or the
    body could not be read or the length was refused, and holding the
    fields set before a key that [std::string] refuses, as too long or
    for want of memory, when the decoder threw at that key.  A
    constructor that returns with an error stored holds the message of
    such an exception. *)
Theorem decode_errors_are_stored (host : endianness) (allocates : Z -> bool)
  (socket_fd : socket) :
  (forall e c, construct host allocates socket_fd <> Throws e c)
  /\ (forall e c,
        receiveRequest host allocates (fresh socket_fd) = Throws e c ->
        construct host allocates socket_fd
        = Returns tt (set_error_message_ (Some (what e)) c)
        /\ hasError (set_error_message_ (Some (what e)) c) = true
        /\ getErrorMessage (set_error_message_ (Some (what e)) c) = what e
        /\ getRequest (set_error_message_ (Some (what e)) c) = request_ c
        /\ ((request_data_ c = None
             \/ exists n, request_data_ c = Some (malloc n))
            /\ request_ c = empty_content
            \/ exists data sizes kvs,
                 (e = string_too_long \/ e = bad_alloc)
                 /\ request_data_ c = Some (holding data)
                 /\ announced_sizes host data = Some sizes
                 /\ cut_fields allocates data (8 + 16 * len sizes) sizes
                    = key_refused e kvs
                 /\ request_ c = set_fields kvs empty_content))
  /\ (forall c,
        construct host allocates socket_fd = Returns tt c ->
        hasError c = true ->
        exists e s,
          receiveRequest host allocates (fresh socket_fd) = Throws e s
          /\ getErrorMessage c = what e).
Proof.
  split; [|split].
  - intros e c. rewrite construct_unfold.
    destruct (receiveRequest host allocates (fresh socket_fd)); discriminate.
  - intros e c E. rewrite construct_unfold, E.
    repeat (split; [reflexivity|]).
    destruct (receiveRequest_cases host allocates (fresh socket_fd)) as
      [rest Hc|rest n' Hc Hn' Hc'|rest n' Hc Hn' Hc' Hc''
      |rest n' data' Hc Hn' Hc' Hc'' Hd'].
    + left. injection E as _ <-. split; [now left|reflexivity].
    + left. injection E as _ <-. split; [now left|reflexivity].
    + left. injection E as _ <-. split; [right; now exists n'|reflexivity].
    + right. apply decode_throws in E.
      destruct E as [He (sizes & kvs & Es & Ec & ->)].
      exists data', sizes, kvs. repeat split; assumption.
  - intros c E Herr. rewrite construct_unfold in E.
    apply (caught_or_passed _ (fun e => set_error_message_ (Some (what e))))
      in E.
    destruct E as [[e [s [E ->]]]|E].
    + exists e, s. split; [exact E|reflexivity].
    + exfalso.
      destruct (receiveRequest_cases host allocates (fresh socket_fd)) as
        [rest Hc|rest n' Hc Hn' Hc'|rest n' Hc Hn' Hc' Hc''
        |rest n' data' Hc Hn' Hc' Hc'' Hd']; try discriminate.
      apply decode_returns in E. destruct E as [kvs ->].
      discriminate.
Qed.

Lemma decode_errors_are_stored_witness :
  exists c,
    construct LittleEndian plenty (idle_socket [Segment long_key_message])
    = Returns tt c
    /\ hasError c = true
    /\ getErrorMessage c = "basic_string::_M_create"%string
    /\ fields (getRequest c) = [([x6b], [x76])].
Proof.
  destruct (decode_errors_are_stored LittleEndian plenty
              (idle_socket [Segment long_key_message]))
    as [_ [Hstored _]].
  destruct (receiveRequest LittleEndian plenty
              (fresh (idle_socket [Segment long_key_message])))
    as [[] c|e c| |] eqn:E;
    [vm_compute in E; discriminate| |vm_compute in E; discriminate..].
  destruct (Hstored e c eq_refl) as [Hc [Herr [Hmsg [Hreq _]]]].
  exists (set_error_message_ (Some (what e)) c).
  split; [exact Hc|]. split; [exact Herr|].
  vm_compute in E. injection E as <- <-. split; reflexivity.
Defined.

(** A key of 2^40 bytes: without the memory for it [std::bad_alloc] is
    stored, and with the memory the key is read outside the block. *)
Example large_key_not_allocated :
  (exists c,
     construct LittleEndian scarce (idle_socket [Segment large_key_message])
     = Returns tt c
     /\ getErrorMessage c = "std::bad_alloc"%string
     /\ getRequest c = empty_content)
  /\ construct LittleEndian plenty (idle_socket [Segment large_key_message])
     = OutOfBounds.
Proof.
  split; [|vm_compute; reflexivity].
  eexists. split; [vm_compute; reflexivity|]. split; reflexivity.
Qed.

(** ** The closing check (C4) *)

Lemma construct_reaches_check (host : endianness) (allocates : Z -> bool)
  (socket_fd : socket) (data extra : bytestring) (sizes : list (Z * Z)) :
  readable (incoming socket_fd) = wire64 host (len data) ++ data ++ extra ->
  len data < kMaxRequestDataLength ->
  announced_sizes host data = Some sizes ->
  keys_inside allocates data (8 + 16 * len sizes) sizes = true ->
  exists kvs rest,
    construct host allocates socket_fd
    = if len data =? uint64 (8 + 16 * len sizes + sum_sizes sizes)
      then Returns tt
             (set_request_ (set_fields kvs empty_content)
                (set_request_data_ (Some (holding data))
                   (set_request_data_length_ (len data)
                      (set_incoming rest (fresh socket_fd)))))
      else Aborts.
Proof.
  intros Hstream Hmax Es Hkeys.
  assert (Hk : kMaxRequestDataLength < 2 ^ 62) by reflexivity.
  destruct (construct_delivered host allocates socket_fd data extra Hstream
              Hmax) as [rest E].
  pose proof (announced_sizes_ok host data sizes Es) as Hok.
  destruct (announced_sizes_len host data sizes Es) as [_ Hroom].
  pose proof (len_nonneg sizes) as Hl.
  destruct (cut_fields_keys_inside allocates data sizes (8 + 16 * len sizes)
              Hok) as [kvs Ec]; [lia|exact Hkeys|].
  exists kvs, rest. rewrite E, decode_request_data_spec, Es, Ec.
  destruct (len data =? _); reflexivity.
Qed.

(** C4: the decoder reaches its closing comparison exactly when the block
    holds the announced size table and every key is one that
    [std::string] does not refuse and lies inside the block; the values
    are not looked at, and offsets are taken modulo 2^64.  Then, if the
    offset reached is the start of the block plus the announced length,
    the constructor returns without an error, and on any other offset, be
    it before or past the end of the block, the process is terminated by
    the failed check: the constructor neither returns nor stores an
    error.  Short of a read outside the block, the constructor is
    terminated, and returns without an error, in no other way. *)
Theorem closing_check (host : endianness) (allocates : Z -> bool)
  (socket_fd : socket) (data extra : bytestring) (sizes : list (Z * Z)) :
  readable (incoming socket_fd) = wire64 host (len data) ++ data ++ extra ->
  len data < kMaxRequestDataLength ->
  announced_sizes host data = Some sizes ->
  let data_ptr := uint64 (8 + 16 * len sizes + sum_sizes sizes) in
  (keys_inside allocates data (8 + 16 * len sizes) sizes = true ->
   data_ptr = 0 + len data ->
   exists c,
     construct host allocates socket_fd = Returns tt c /\ hasError c = false)
  /\ (keys_inside allocates data (8 + 16 * len sizes) sizes = true ->
      data_ptr <> 0 + len data ->
      construct host allocates socket_fd = Aborts
      /\ forall c, construct host allocates socket_fd <> Returns tt c)
  /\ (construct host allocates socket_fd = Aborts ->
      keys_inside allocates data (8 + 16 * len sizes) sizes = true
      /\ data_ptr <> 0 + len data)
  /\ (forall c,
        construct host allocates socket_fd = Returns tt c ->
        hasError c = false ->
        keys_inside allocates data (8 + 16 * len sizes) sizes = true
        /\ data_ptr = 0 + len data).
Proof.
  intros Hstream Hmax Es data_ptr.
  assert (Hk : kMaxRequestDataLength < 2 ^ 62) by reflexivity.
  pose proof (announced_sizes_ok host data sizes Es) as Hok.
  destruct (announced_sizes_len host data sizes Es) as [_ Hroom].
  pose proof (len_nonneg sizes) as Hl.
  destruct (keys_inside allocates data (8 + 16 * len sizes) sizes) eqn:Hkeys.
  - destruct (construct_reaches_check host allocates socket_fd data extra
                sizes Hstream Hmax Es Hkeys) as (kvs & rest & E).
    rewrite E. fold data_ptr.
    destruct (Z.eqb_spec (len data) data_ptr) as [Hcmp|Hcmp].
    + split; [|split; [|split]].
      * intros _ _. eexists. split; reflexivity.
      * intros _ Hne. lia.
      * discriminate.
      * intros c _ _. split; [reflexivity|lia].
    + split; [|split; [|split]].
      * intros _ He. lia.
      * intros _ _. split; [reflexivity|discriminate].
      * intros _. split; [reflexivity|lia].
      * discriminate.
  - split; [discriminate|]. split; [discriminate|].
    destruct (construct_delivered host allocates socket_fd data extra
                Hstream Hmax) as [rest E].
    rewrite E, decode_request_data_spec, Es. clear E.
    destruct (cut_fields allocates data (8 + 16 * len sizes) sizes)
      as [kvs p| |e kvs] eqn:Ec.
    + exfalso. apply (keys_inside_cut_all allocates data sizes) in Ec; [|lia].
      congruence.
    + split; [discriminate|]. intros c E. discriminate.
    + split; [discriminate|]. intros c E Herr. injection E as <-.
      discriminate.
Qed.

Lemma closing_check_witness :
  readable (incoming (idle_socket [Segment cut_value_message]))
  = wire64 LittleEndian (len (skipn 8 cut_value_message))
    ++ skipn 8 cut_value_message ++ []
  /\ len (skipn 8 cut_value_message) < kMaxRequestDataLength
  /\ announced_sizes LittleEndian (skipn 8 cut_value_message)
     = Some [(1, 5)]
  /\ keys_inside plenty (skipn 8 cut_value_message) 24 [(1, 5)] = true
  /\ len (skipn 8 cut_value_message) = 27
  /\ construct LittleEndian plenty (idle_socket [Segment cut_value_message])
     = Aborts.
Proof.
  assert (H1 : readable (incoming (idle_socket [Segment cut_value_message]))
               = wire64 LittleEndian (len (skipn 8 cut_value_message))
                 ++ skipn 8 cut_value_message ++ [])
    by (vm_compute; reflexivity).
  assert (H2 : len (skipn 8 cut_value_message) < kMaxRequestDataLength)
    by (vm_compute; reflexivity).
  assert (H3 : announced_sizes LittleEndian (skipn 8 cut_value_message)
               = Some [(1, 5)]) by (vm_compute; reflexivity).
  assert (H4 : keys_inside plenty (skipn 8 cut_value_message) 24 [(1, 5)]
               = true) by (vm_compute; reflexivity).
  repeat (split; [assumption|]). split; [vm_compute; reflexivity|].
  destruct (closing_check LittleEndian plenty _ _ _ _ H1 H2 H3)
    as [_ [Hdiff _]].
  apply Hdiff; [exact H4|vm_compute; discriminate].
Defined.

(** One byte after the announced payload: the closing check fails. *)
Example trailing_byte_aborts :
  construct LittleEndian plenty
    (idle_socket [Segment (wire64 LittleEndian 49);
                  Segment (body LittleEndian example_content ++ [x00])])
  = Aborts.
Proof. vm_compute. reflexivity. Qed.

(** Sizes whose sum passes 2^64: the offset wraps round to the end of the
    block and the closing check holds. *)
Example wrapped_sizes_pass_the_check :
  announced_sizes LittleEndian (skipn 8 wrapped_sizes_message)
  = Some [(2, 2 ^ 64 - 1); (1, 0)]
  /\ len (skipn 8 wrapped_sizes_message) = 42
  /\ exists c,
       construct LittleEndian plenty
         (idle_socket [Segment wrapped_sizes_message])
       = Returns tt c
       /\ hasError c = false.
Proof.
  split; [vm_compute; reflexivity|]. split; [vm_compute; reflexivity|].
  eexists. split; [vm_compute; reflexivity|reflexivity].
Qed.

(** ** Reads outside the block (C10) *)

(** C10: a message whose last value is cut short violates
    8 + 16 * num_fields + the sum of the sizes <= total_length, and yet no
    read falls outside the block: the value is only pointed to, and the
    closing check is reached, where it fails. *)
Lemma cut_value_is_not_read :
  ~ (fits LittleEndian (skipn 8 cut_value_message) = false ->
     construct LittleEndian plenty (idle_socket [Segment cut_value_message])
     = OutOfBounds).
Proof.
  intros H. specialize (H eq_refl). vm_compute in H. discriminate.
Qed.

(** C10: the decoder takes the field count and the size table from the
    block without comparing them with the announced length.  Its reads
    stay inside the block whenever the block holds 8 bytes, the announced
    size table and all announced keys and values.  A read leaves the
    block, and the closing check is not reached, exactly when the block
    has less than 8 bytes, or is too short for its size table, or a key
    that is copied, [std::string] not refusing it, does not lie inside
    the block.  A value is not read. *)
Theorem decoder_reads_outside_iff (host : endianness) (allocates : Z -> bool)
  (socket_fd : socket) (data extra : bytestring) :
  readable (incoming socket_fd) = wire64 host (len data) ++ data ++ extra ->
  len data < kMaxRequestDataLength ->
  (construct host allocates socket_fd = OutOfBounds
   <-> reads_outside host allocates data = true)
  /\ (fits host data = true ->
      construct host allocates socket_fd <> OutOfBounds)
  /\ (fits host data = true
      <-> exists nf sizes,
            8 <= len data
            /\ announced_fields host data = Some nf
            /\ announced_sizes host data = Some sizes
            /\ len sizes = nf
            /\ 8 + 16 * nf + sum_sizes sizes <= len data)
  /\ (len data < 8 -> construct host allocates socket_fd = OutOfBounds)
  /\ (forall nf,
        announced_fields host data = Some nf ->
        len data < 8 + 16 * nf ->
        construct host allocates socket_fd = OutOfBounds)
  /\ (forall sizes,
        announced_sizes host data = Some sizes ->
        (construct host allocates socket_fd = OutOfBounds
         <-> key_read_outside allocates data (8 + 16 * len sizes) sizes
             = true)).
Proof.
  intros Hstream Hmax.
  assert (Hk : kMaxRequestDataLength < 2 ^ 62) by reflexivity.
  destruct (construct_delivered host allocates socket_fd data extra Hstream
              Hmax) as [rest E].
  assert (Hiff : construct host allocates socket_fd = OutOfBounds
                 <-> reads_outside host allocates data = true).
  { rewrite E.
    match goal with
    | |- context [decode_request_data host allocates data (len data) ?c1] =>
        rewrite <- (decode_out_of_bounds_iff host allocates data (len data) c1);
        destruct (decode_request_data host allocates data (len data) c1)
    end; split; (discriminate || reflexivity). }
  clear E. split; [exact Hiff|]. split; [|split; [|split; [|split]]].
  - intros Hfit Hout. apply Hiff in Hout.
    rewrite fits_reads_inside in Hout by (assumption || lia). discriminate.
  - unfold fits, announced_end, announced_sizes, announced_fields.
    destruct (Z.leb_spec 8 (len data)) as [H8|H8].
    + destruct (Z.leb_spec (8 + 16 * uint64_at host data 0) (len data))
        as [Ht|Ht].
      * set (sizes := map _ _).
        assert (Hl : len sizes = uint64_at host data 0).
        { pose proof (unwire64_range host
                        (firstn 8 (skipn (Z.to_nat 0) data))) as Hr.
          fold (uint64_at host data 0) in Hr.
          unfold sizes, len. rewrite length_map, length_seq. lia. }
        rewrite Hl. split.
        -- intros Hfit. apply Z.leb_le in Hfit.
           exists (uint64_at host data 0), sizes. auto.
        -- intros [nf [sizes' [_ [Hnf [Hs [_ Hfit]]]]]].
           injection Hnf as <-. injection Hs as <-. now apply Z.leb_le.
      * split; [discriminate|].
        intros [nf [sizes' [_ [_ [Hs _]]]]]. discriminate.
    + split; [discriminate|].
      intros [nf [sizes' [Hlen _]]]. lia.
  - intros H8. apply Hiff. unfold reads_outside, announced_sizes,
      announced_fields.
    destruct (Z.leb_spec 8 (len data)); [lia|reflexivity].
  - intros nf Hnf Hshort. apply Hiff.
    unfold reads_outside, announced_sizes. rewrite Hnf.
    destruct (Z.leb_spec (8 + 16 * nf) (len data)); [lia|reflexivity].
  - intros sizes Es. rewrite Hiff. unfold reads_outside. rewrite Es.
    reflexivity.
Qed.

Lemma decoder_reads_outside_iff_witness :
  readable (incoming (idle_socket [Segment (wire64 LittleEndian 4);
                                   Segment [x00; x00; x00; x02]]))
  = wire64 LittleEndian (len [x00; x00; x00; x02])
    ++ [x00; x00; x00; x02] ++ []
  /\ len [x00; x00; x00; x02] < kMaxRequestDataLength
  /\ construct LittleEndian plenty
       (idle_socket [Segment (wire64 LittleEndian 4);
                     Segment [x00; x00; x00; x02]])
     = OutOfBounds.
Proof.
  assert (H1 : readable (incoming (idle_socket
                 [Segment (wire64 LittleEndian 4);
                  Segment [x00; x00; x00; x02]]))
               = wire64 LittleEndian (len [x00; x00; x00; x02])
                 ++ [x00; x00; x00; x02] ++ [])
    by (vm_compute; reflexivity).
  assert (H2 : len [x00; x00; x00; x02] < kMaxRequestDataLength)
    by (vm_compute; reflexivity).
  repeat (split; [assumption|]).
  destruct (decoder_reads_outside_iff LittleEndian plenty _ _ _ H1 H2)
    as [_ [_ [_ [Hshort _]]]].
  apply Hshort. vm_compute. reflexivity.
Defined.

(** A block of 24 bytes that announces two fields: the second entry of
    the size table lies outside it. *)
Example size_table_beyond_block :
  construct LittleEndian plenty
    (idle_socket [Segment (wire64 LittleEndian 24 ++ wire64 LittleEndian 2
                           ++ wire64 LittleEndian 0 ++ wire64 LittleEndian 0)])
  = OutOfBounds.
Proof. vm_compute. reflexivity. Qed.

(** A key of three bytes of which the block holds one: the key is read
    outside the block. *)
Example key_beyond_block :
  construct LittleEndian plenty
    (idle_socket [Segment (wire64 LittleEndian 25 ++ wire64 LittleEndian 1
                           ++ wire64 LittleEndian 3 ++ wire64 LittleEndian 0
                           ++ [x6b])])
  = OutOfBounds.
Proof. vm_compute. reflexivity. Qed.

(** * Further properties *)

(** ** The byte-order helpers *)

(** X1: on either kind of host [Ntohll] and [Htonll] undo each other on
    every 64-bit value, in both orders, and their results are 64-bit
    values. *)
Theorem Ntohll_Htonll_inverse (host : endianness) (x : Z) :
  0 <= x < 2 ^ 64 ->
  Ntohll host (Htonll host x) = x
  /\ Htonll host (Ntohll host x) = x
  /\ 0 <= Htonll host x < 2 ^ 64
  /\ 0 <= Ntohll host x < 2 ^ 64.
Proof.
  intros Hx. rewrite Ntohll_Htonll, Htonll_Ntohll, uint64_small by assumption.
  repeat split; try apply Htonll_range;
    rewrite Ntohll_Htonll_eq; apply Htonll_range.
Qed.

Lemma Ntohll_Htonll_inverse_witness :
  0 <= 0x0102030405060708 < 2 ^ 64
  /\ Ntohll LittleEndian (Htonll LittleEndian 0x0102030405060708)
     = 0x0102030405060708.
Proof.
  assert (H : 0 <= 0x0102030405060708 < 2 ^ 64) by lia.
  split; [exact H|].
  exact (proj1 (Ntohll_Htonll_inverse LittleEndian 0x0102030405060708 H)).
Defined.

Lemma be_value_be_bytes (n : nat) (x : Z) :
  be_value (be_bytes n x) = x mod 256 ^ Z.of_nat n.
Proof.
  unfold be_value, be_bytes. rewrite rev_involutive. apply le_value_le_bytes.
Qed.

(** X2: on a little-endian host [writeUInt64] sends, for every value, the
    eight bytes of its 64-bit network-order (most significant byte first)
    encoding, and nothing else changes. *)
Theorem writeUInt64_little_endian_network_order (value : Z)
  (c : SimpleSocketConnection) :
  writeUInt64 LittleEndian value c = Returns tt (send (be_bytes 8 value) c)
  /\ len (be_bytes 8 value) = 8
  /\ be_value (be_bytes 8 value) = uint64 value.
Proof.
  split; [|split].
  - rewrite writeUInt64_sends. unfold wire64.
    now rewrite store_Htonll_little.
  - unfold len. now rewrite be_bytes_length.
  - apply (be_value_be_bytes 8).
Qed.

Lemma wire64_big_as_little (x : Z) :
  wire64 BigEndian x
  = wire64 LittleEndian (uint32 x * 2 ^ 32 + uint32 (x / 2 ^ 32)).
Proof.
  unfold wire64. rewrite store_Htonll_big, store_Htonll_little.
  unfold be_bytes at 3.
  rewrite le_bytes_8_words by apply uint32_range.
  rewrite rev_app_distr, !le_bytes_uint32. reflexivity.
Qed.

(** X3: a big-endian host sends the low 32-bit half of a value before the
    high half, each half most significant byte first; a little-endian
    peer therefore receives the value with its two halves exchanged. *)
Theorem big_endian_sender_little_endian_receiver (x : Z) :
  0 <= x < 2 ^ 64 ->
  wire64 BigEndian x = be_bytes 4 x ++ be_bytes 4 (x / 2 ^ 32)
  /\ unwire64 LittleEndian (wire64 BigEndian x)
     = (x mod 2 ^ 32) * 2 ^ 32 + x / 2 ^ 32
  /\ (unwire64 LittleEndian (wire64 BigEndian x) = x
      <-> x mod 2 ^ 32 = x / 2 ^ 32).
Proof.
  intros Hx.
  assert (Hhi : 0 <= x / 2 ^ 32 < 2 ^ 32).
  { split; [apply Z.div_pos; lia|apply Z.div_lt_upper_bound; lia]. }
  pose proof (Z.mod_pos_bound x (2 ^ 32) ltac:(lia)) as Hlo.
  assert (E : unwire64 LittleEndian (wire64 BigEndian x)
              = (x mod 2 ^ 32) * 2 ^ 32 + x / 2 ^ 32).
  { rewrite wire64_big_as_little, unwire64_wire64.
    unfold uint32 at 2. rewrite (Z.mod_small (x / 2 ^ 32)) by lia.
    unfold uint32. apply uint64_small. lia. }
  split; [apply store_Htonll_big|]. split; [exact E|].
  rewrite E. pose proof (Z.div_mod x (2 ^ 32) ltac:(lia)). lia.
Qed.

Lemma big_endian_sender_little_endian_receiver_witness :
  0 <= 58 < 2 ^ 64
  /\ unwire64 LittleEndian (wire64 BigEndian 58) = 58 * 2 ^ 32.
Proof.
  assert (H : 0 <= 58 < 2 ^ 64) by lia.
  split; [exact H|].
  exact (proj1 (proj2 (big_endian_sender_little_endian_receiver 58 H))).
Defined.

(** ** Receiving *)

(** X4: the eight bytes [writeUInt64] sends for a value are read back by
    [receiveUInt64], on a machine of the same byte order, as that value
    reduced to 64 bits, in whatever segments they arrive; exactly these
    eight bytes are taken from the socket and what follows them stays
    readable. *)
Theorem writeUInt64_then_receiveUInt64 (host : endianness) (value : Z)
  (sender : SimpleSocketConnection) :
  exists sent,
    writeUInt64 host value sender = Returns tt (send sent sender)
    /\ len sent = 8
    /\ forall receiver following,
         readable (incoming (socket_fd_ receiver)) = sent ++ following ->
         exists rest,
           receiveUInt64 host receiver
           = Returns (uint64 value) (set_incoming rest receiver)
           /\ readable rest = following.
Proof.
  exists (wire64 host value). split; [apply writeUInt64_sends|].
  split; [apply wire64_len|]. intros receiver following Hstream.
  destruct (readable_header host value following) as [Hf Hs].
  destruct (receiveUInt64_enough host receiver) as [rest [E Hr]].
  { rewrite Hstream, len_app, wire64_len. pose proof (len_nonneg following).
    lia. }
  exists rest. rewrite E, Hr, Hstream, Hf, Hs, unwire64_wire64. auto.
Qed.

(** X5: receiving [a] bytes and then [b] bytes gives, put together, the
    same bytes as receiving [a + b] bytes at once, and leaves the same
    bytes readable on the socket. *)
Theorem receiveData_in_two_parts (a b : Z) (c : SimpleSocketConnection) :
  0 <= a -> 0 <= b -> a + b < 2 ^ 64 ->
  a + b <= len (readable (incoming (socket_fd_ c))) ->
  exists rest1 rest2,
    (x <- receiveData a ;; y <- receiveData b ;; ret (x ++ y)) c
    = Returns (firstn (Z.to_nat (a + b)) (readable (incoming (socket_fd_ c))))
              (set_incoming rest1 c)
    /\ receiveData (a + b) c
       = Returns (firstn (Z.to_nat (a + b))
                         (readable (incoming (socket_fd_ c))))
                 (set_incoming rest2 c)
    /\ readable rest1 = readable rest2.
Proof.
  intros Ha Hb Hab Hlen.
  set (stream := readable (incoming (socket_fd_ c))) in *.
  destruct (receiveData_enough _ (a + b) c eq_refl ltac:(lia) Hlen)
    as [rest2 [E2 Hr2]].
  destruct (receiveData_enough _ a c eq_refl ltac:(lia) ltac:(fold stream; lia))
    as [r1 [E1 Hr1]].
  fold stream in E1, Hr1, E2, Hr2.
  destruct (receiveData_enough r1 b (set_incoming r1 c) eq_refl ltac:(lia))
    as [rest1 [E1' Hr1']].
  { rewrite Hr1, (skipn_len a) by (fold stream; lia). lia. }
  exists rest1, rest2. split; [|split].
  - unfold bind at 1. rewrite E1. unfold bind at 1. rewrite E1'.
    unfold ret. rewrite set_incoming_set_incoming, Hr1.
    rewrite Z2Nat.inj_add, firstn_add by lia. reflexivity.
  - exact E2.
  - rewrite Hr1', Hr2, Hr1, skipn_skipn, Z2Nat.inj_add by lia.
    now rewrite Nat.add_comm.
Qed.

Lemma receiveData_in_two_parts_witness :
  0 <= 2 /\ 0 <= 3 /\ 2 + 3 < 2 ^ 64
  /\ 2 + 3 <= len (readable [Segment [x01]; Segment [x02; x03; x04];
                             Segment [x05; x06]])
  /\ exists rest1,
       (x <- receiveData 2 ;; y <- receiveData 3 ;; ret (x ++ y))
         (fresh (idle_socket [Segment [x01]; Segment [x02; x03; x04];
                              Segment [x05; x06]]))
       = Returns [x01; x02; x03; x04; x05]
           (set_incoming rest1
              (fresh (idle_socket [Segment [x01]; Segment [x02; x03; x04];
                                   Segment [x05; x06]]))).
Proof.
  assert (H1 : 0 <= 2) by lia. assert (H2 : 0 <= 3) by lia.
  assert (H3 : 2 + 3 < 2 ^ 64) by lia.
  assert (H4 : 2 + 3 <= len (readable [Segment [x01];
                                       Segment [x02; x03; x04];
                                       Segment [x05; x06]]))
    by (vm_compute; discriminate).
  repeat (split; [assumption|]).
  destruct (receiveData_in_two_parts 2 3
              (fresh (idle_socket [Segment [x01]; Segment [x02; x03; x04];
                                   Segment [x05; x06]])) H1 H2 H3 H4)
    as [rest1 [rest2 [E _]]].
  exists rest1. exact E.
Defined.

(** ** What the constructor does to the socket *)

Lemma receiveRequest_delivered_rest (host : endianness) (allocates : Z -> bool)
  (c : SimpleSocketConnection) (data extra : bytestring) :
  readable (incoming (socket_fd_ c)) = wire64 host (len data) ++ data ++ extra ->
  len data < kMaxRequestDataLength ->
  exists rest,
    receiveRequest host allocates c
    = decode_request_data host allocates data (len data)
        (set_request_data_ (Some (holding data))
           (set_request_data_length_ (len data) (set_incoming rest c)))
    /\ readable rest = extra.
Proof.
  intros Hstream Hmax. pose proof (len_nonneg data) as H0.
  pose proof (len_nonneg extra) as He.
  assert (Hk : kMaxRequestDataLength < 2 ^ 64) by reflexivity.
  destruct (readable_header host (len data) (data ++ extra)) as [Hf Hs].
  destruct (receiveUInt64_enough host c) as [r1 [E1 Hr1]].
  { rewrite Hstream, !len_app, wire64_len. lia. }
  rewrite Hstream, Hf, unwire64_wire64, uint64_small in E1 by lia.
  rewrite Hstream, Hs in Hr1.
  set (c1 := set_request_data_ (Some (malloc (len data)))
               (set_request_data_length_ (len data) (set_incoming r1 c))).
  destruct (receiveData_enough r1 (len data) c1 eq_refl ltac:(lia))
    as [rest [E2 Hr2]].
  { rewrite Hr1, len_app. lia. }
  rewrite Hr1, firstn_len_app in E2. rewrite Hr1, skipn_len_app in Hr2.
  exists rest. split; [|exact Hr2].
  unfold receiveRequest. unfold bind at 1. rewrite E1.
  unfold bind at 1. unfold modify at 1. unfold bind at 1.
  destruct (Z.leb_spec kMaxRequestDataLength (len data)); [lia|].
  unfold ret at 1. unfold bind at 1. unfold modify at 1.
  unfold bind at 1. fold c1. rewrite E2.
  unfold bind at 1. unfold modify at 1. reflexivity.
Qed.

(** X6: the constructor only reads: whenever it returns, what the socket
    has sent is unchanged and the socket is neither shut down nor closed
    by it. *)
Theorem construct_only_reads (host : endianness) (allocates : Z -> bool)
  (socket_fd : socket) (c : SimpleSocketConnection) :
  construct host allocates socket_fd = Returns tt c ->
  outgoing (socket_fd_ c) = outgoing socket_fd
  /\ shut_down (socket_fd_ c) = shut_down socket_fd
  /\ closed (socket_fd_ c) = closed socket_fd.
Proof.
  intros E. rewrite construct_unfold in E. revert E.
  destruct (receiveRequest_cases host allocates (fresh socket_fd)) as
    [rest Hc|rest n' Hc Hn' Hc'|rest n' Hc Hn' Hc' Hc''
    |rest n' data' Hc Hn' Hc' Hc'' Hd']; intros E.
  1-3: injection E as <-; repeat split.
  apply (caught_or_passed _ (fun e => set_error_message_ (Some (what e))))
    in E.
  destruct E as [[e [s [E ->]]]|E].
  { apply decode_throws in E.
    destruct E as [_ (sizes & kvs & _ & _ & ->)]. repeat split. }
  apply decode_returns in E. destruct E as [kvs ->]. repeat split.
Qed.

Lemma construct_only_reads_witness :
  exists c,
    construct LittleEndian plenty
      (mk_socket [Segment (frame LittleEndian example_content)]
                 [x41; x42] false false)
    = Returns tt c
    /\ outgoing (socket_fd_ c) = [x41; x42].
Proof.
  destruct (construct LittleEndian plenty
              (mk_socket [Segment (frame LittleEndian example_content)]
                         [x41; x42] false false))
    as [[] c|e c| |] eqn:E;
    [|vm_compute in E; discriminate..].
  exists c. split; [reflexivity|].
  exact (proj1 (construct_only_reads LittleEndian plenty _ c E)).
Defined.

(** X7: a constructor that returns on a whole message, with or without
    an error stored, has taken from the socket the length field and
    exactly the announced number of bytes: the bytes that follow the
    message stay readable, the block it holds is the body of the message,
    and [request_data_length_] is the length of the body. *)
Theorem construct_consumes_the_message (host : endianness)
  (allocates : Z -> bool) (socket_fd : socket) (data extra : bytestring)
  (c : SimpleSocketConnection) :
  readable (incoming socket_fd) = wire64 host (len data) ++ data ++ extra ->
  len data < kMaxRequestDataLength ->
  construct host allocates socket_fd = Returns tt c ->
  readable (incoming (socket_fd_ c)) = extra
  /\ request_data_ c = Some (holding data)
  /\ request_data_length_ c = Some (len data).
Proof.
  intros Hstream Hmax E. rewrite construct_unfold in E.
  destruct (receiveRequest_delivered_rest host allocates (fresh socket_fd)
              data extra Hstream Hmax) as [rest [R Hrest]].
  rewrite R in E.
  apply (caught_or_passed _ (fun e => set_error_message_ (Some (what e))))
    in E.
  destruct E as [[e [s [E ->]]]|E].
  { apply decode_throws in E.
    destruct E as [_ (sizes & kvs & _ & _ & ->)].
    simpl_connection. auto. }
  apply decode_returns in E. destruct E as [kvs ->].
  simpl_connection. auto.
Qed.

Lemma construct_consumes_the_message_witness :
  exists c,
    construct LittleEndian plenty
      (idle_socket [Segment (frame LittleEndian example_content
                             ++ [x07; x08; x09])])
    = Returns tt c
    /\ readable (incoming (socket_fd_ c)) = [x07; x08; x09].
Proof.
  destruct (construct LittleEndian plenty
              (idle_socket [Segment (frame LittleEndian example_content
                                     ++ [x07; x08; x09])]))
    as [[] c|e c| |] eqn:E;
    [|vm_compute in E; discriminate..].
  exists c. split; [reflexivity|].
  refine (proj1 (construct_consumes_the_message LittleEndian plenty _
                   (body LittleEndian example_content) [x07; x08; x09] c
                   _ _ E)).
  - vm_compute. reflexivity.
  - vm_compute. reflexivity.
Defined.

(** X8: how the bytes are cut into segments on their way does not matter:
    two sockets on which the same bytes are readable make the constructor
    end in the same way, and when it returns, the request and the stored
    error are the same. *)
Theorem construct_ignores_segmentation (host : endianness)
  (allocates : Z -> bool) (socket_fd socket_fd' : socket) :
  readable (incoming socket_fd) = readable (incoming socket_fd') ->
  match construct host allocates socket_fd,
        construct host allocates socket_fd' with
  | Returns _ c, Returns _ c' =>
      getRequest c = getRequest c'
      /\ error_message_ c = error_message_ c'
  | Aborts, Aborts => True
  | OutOfBounds, OutOfBounds => True
  | _, _ => False
  end.
Proof.
  intros Hsame. rewrite !construct_unfold.
  destruct (receiveRequest_cases host allocates (fresh socket_fd)) as
    [rest Hc|rest n Hc Hn Hc'|rest n Hc Hn Hc' Hc''
    |rest n data Hc Hn Hc' Hc'' Hd];
  destruct (receiveRequest_cases host allocates (fresh socket_fd')) as
    [rest' Hd1|rest' n' Hd1 Hn' Hd2|rest' n' Hd1 Hn' Hd2 Hd3
    |rest' n' data' Hd1 Hn' Hd2 Hd3 Hd4];
    cbn [fresh socket_fd_] in *; rewrite <- ?Hsame in *;
    try (rewrite <- Hn in Hn'; subst n'); try (exfalso; lia);
    try (repeat split; fail).
  rewrite <- Hd in Hd4. subst data'.
  rewrite !decode_request_data_spec.
  destruct (announced_sizes host data) as [sizes|]; [|exact I].
  destruct (cut_fields allocates data (8 + 16 * len sizes) sizes)
    as [kvs p| |e kvs]; [|exact I|repeat split].
  destruct (n =? p); [|exact I]. repeat split.
Qed.

Lemma construct_ignores_segmentation_witness :
  readable (incoming (idle_socket [Segment (frame LittleEndian example_content)]))
  = readable (incoming (idle_socket
       [Segment (firstn 11 (frame LittleEndian example_content));
        Segment (skipn 11 (frame LittleEndian example_content))]))
  /\ match construct LittleEndian plenty
             (idle_socket [Segment (frame LittleEndian example_content)]),
           construct LittleEndian plenty
             (idle_socket
                [Segment (firstn 11 (frame LittleEndian example_content));
                 Segment (skipn 11 (frame LittleEndian example_content))])
     with
     | Returns _ c, Returns _ c' => getRequest c = getRequest c'
     | Aborts, Aborts => True
     | OutOfBounds, OutOfBounds => True
     | _, _ => False
     end.
Proof.
  assert (H : readable (incoming (idle_socket
                [Segment (frame LittleEndian example_content)]))
              = readable (incoming (idle_socket
                  [Segment (firstn 11 (frame LittleEndian example_content));
                   Segment (skipn 11 (frame LittleEndian example_content))])))
    by (vm_compute; reflexivity).
  split; [exact H|].
  pose proof (construct_ignores_segmentation LittleEndian plenty _ _ H) as S.
  destruct (construct LittleEndian plenty
              (idle_socket [Segment (frame LittleEndian example_content)]))
    as [[] c|e c| |];
  destruct (construct LittleEndian plenty
              (idle_socket
                 [Segment (firstn 11 (frame LittleEndian example_content));
                  Segment (skipn 11 (frame LittleEndian example_content))]))
    as [[] c'|e' c'| |]; try exact S.
  exact (proj1 S).
Defined.

(** ** What an accepted request was *)

Lemma store_load (host : endianness) (bs : bytestring) :
  store host (length bs) (load host bs) = bs.
Proof.
  destruct host; unfold store, load, be_bytes, be_value.
  - apply le_bytes_le_value.
  - rewrite <- (length_rev bs), le_bytes_le_value. apply rev_involutive.
Qed.

Lemma load_range (host : endianness) (bs : bytestring) :
  0 <= load host bs < 256 ^ len bs.
Proof.
  destruct host; unfold load, be_value.
  - apply le_value_range.
  - pose proof (le_value_range (rev bs)) as H. unfold len in *.
    now rewrite length_rev in H.
Qed.

Lemma wire64_unwire64 (host : endianness) (bs : bytestring) :
  length bs = 8%nat -> wire64 host (unwire64 host bs) = bs.
Proof.
  intros H8. unfold wire64, unwire64. rewrite Htonll_Ntohll.
  pose proof (load_range host bs) as Hr. unfold len in Hr. rewrite H8 in Hr.
  rewrite uint64_small by exact Hr.
  rewrite <- H8. apply store_load.
Qed.

Lemma chunk_split {A : Type} (buf : list A) (p a b : Z) :
  0 <= p -> 0 <= a -> 0 <= b ->
  firstn (Z.to_nat (a + b)) (skipn (Z.to_nat p) buf)
  = firstn (Z.to_nat a) (skipn (Z.to_nat p) buf)
    ++ firstn (Z.to_nat b) (skipn (Z.to_nat (p + a)) buf).
Proof.
  intros Hp Ha Hb.
  rewrite !Z2Nat.inj_add, firstn_add, skipn_skipn by lia.
  now rewrite (Nat.add_comm (Z.to_nat a)).
Qed.

Lemma chunk_length {A : Type} (buf : list A) (p n : Z) :
  0 <= p -> 0 <= n -> p + n <= len buf ->
  length (firstn (Z.to_nat n) (skipn (Z.to_nat p) buf)) = Z.to_nat n.
Proof.
  unfold len. intros Hp Hn Hin. rewrite length_firstn, length_skipn. lia.
Qed.

Lemma wire64_uint64_at (host : endianness) (buf : bytestring) (p : Z) :
  0 <= p -> p + 8 <= len buf ->
  wire64 host (uint64_at host buf p) = firstn 8 (skipn (Z.to_nat p) buf).
Proof.
  intros Hp Hin. unfold uint64_at. apply wire64_unwire64.
  exact (chunk_length buf p 8 Hp ltac:(lia) Hin).
Qed.

(** The bytes a size table was read from are its encoding. *)
Lemma size_table_read (host : endianness) (buf : bytestring) (count : nat) :
  forall j : nat,
    8 + 16 * Z.of_nat (j + count) <= len buf ->
    size_table host
      (map (fun i => (uint64_at host buf (8 + 16 * Z.of_nat i),
                      uint64_at host buf (16 + 16 * Z.of_nat i)))
           (seq j count))
    = firstn (Z.to_nat (16 * Z.of_nat count))
             (skipn (Z.to_nat (8 + 16 * Z.of_nat j)) buf).
Proof.
  induction count as [|count IH]; intros j Hin; [reflexivity|].
  cbn [seq map]. unfold size_table. cbn [flat_map fst snd].
  fold (size_table host
          (map (fun i => (uint64_at host buf (8 + 16 * Z.of_nat i),
                          uint64_at host buf (16 + 16 * Z.of_nat i)))
               (seq (S j) count))).
  rewrite IH by lia.
  rewrite !wire64_uint64_at by lia.
  replace (16 * Z.of_nat (S count)) with (8 + (8 + 16 * Z.of_nat count))
    by lia.
  rewrite (chunk_split buf (8 + 16 * Z.of_nat j) 8) by lia.
  rewrite (chunk_split buf (8 + 16 * Z.of_nat j + 8) 8) by lia.
  rewrite <- app_assoc.
  replace (8 + 16 * Z.of_nat j + 8) with (16 + 16 * Z.of_nat j) by lia.
  replace (16 + 16 * Z.of_nat j + 8) with (8 + 16 * Z.of_nat (S j)) by lia.
  reflexivity.
Qed.

Lemma announced_sizes_table (host : endianness) (buf : bytestring)
  (sizes : list (Z * Z)) :
  announced_sizes host buf = Some sizes ->
  wire64 host (len sizes) = firstn 8 buf
  /\ size_table host sizes
     = firstn (Z.to_nat (16 * len sizes)) (skipn 8 buf).
Proof.
  intros Es. destruct (announced_sizes_len host buf sizes Es) as [Hl Hroom].
  pose proof (len_nonneg sizes) as H0.
  split.
  - rewrite Hl. apply (wire64_uint64_at host buf 0); lia.
  - unfold announced_sizes, announced_fields in Es.
    destruct (8 <=? len buf); [|discriminate].
    destruct (8 + 16 * uint64_at host buf 0 <=? len buf); [|discriminate].
    rewrite <- Hl in Es.
    assert (Es' : sizes
                  = map (fun i => (uint64_at host buf (8 + 16 * Z.of_nat i),
                                   uint64_at host buf (16 + 16 * Z.of_nat i)))
                        (seq 0 (Z.to_nat (len sizes)))) by congruence.
    rewrite Es' at 1. rewrite size_table_read by (cbn [Nat.add]; lia).
    rewrite Z2Nat.id by lia. reflexivity.
Qed.

Lemma decoded_block_is_a_body (host : endianness) (data : bytestring)
  (sizes : list (Z * Z)) (kvs : list (list byte * list byte)) :
  announced_sizes host data = Some sizes ->
  sizes_of kvs = sizes ->
  payload kvs
  = firstn (Z.to_nat (sum_sizes sizes))
           (skipn (Z.to_nat (8 + 16 * len sizes)) data) ->
  len data = 8 + 16 * len sizes + sum_sizes sizes ->
  data = body host kvs /\ len data = total_length kvs.
Proof.
  intros Es Hsz Hpay Hend.
  destruct (announced_sizes_len host data sizes Es) as [_ Hroom].
  destruct (announced_sizes_table host data sizes Es) as [Hhead Htable].
  pose proof (announced_sizes_ok host data sizes Es) as Hok.
  pose proof (len_nonneg sizes) as H0.
  pose proof (sum_sizes_ok_nonneg sizes Hok) as Hs.
  assert (Hn : len kvs = len sizes)
    by (rewrite <- Hsz; symmetry; apply len_sizes_of).
  split.
  - unfold body, fields. rewrite Hn, Hsz, Hhead, Htable, Hpay.
    pose proof (chunk_split data 0 8 (16 * len sizes + sum_sizes sizes)
                  ltac:(lia) ltac:(lia) ltac:(lia)) as C1.
    pose proof (chunk_split data 8 (16 * len sizes) (sum_sizes sizes)
                  ltac:(lia) ltac:(lia) ltac:(lia)) as C2.
    change (0 + 8) with 8 in C1. change (Z.to_nat 0) with 0%nat in C1.
    change (Z.to_nat 8) with 8%nat in C1, C2.
    change (skipn 0 data) with data in C1.
    rewrite <- C2, <- C1.
    replace (Z.to_nat (8 + (16 * len sizes + sum_sizes sizes)))
      with (length data) by (unfold len in *; lia).
    symmetry. apply firstn_all.
  - unfold total_length, fields. rewrite Hn, Hsz. lia.
Qed.

(** X9: a request accepted without an error, in a block that holds all
    that it announces, was the encoding of its fields: the block is, byte
    for byte, the body that [sendResponse] writes for the list of fields
    that were set, the stream began with the whole message for that list,
    and the announced length was below the maximum.  With no key twice in
    the list, the request holds exactly that list. *)
Theorem accepted_request_is_an_encoding (host : endianness)
  (allocates : Z -> bool) (socket_fd : socket) (c : SimpleSocketConnection)
  (data : bytestring) :
  construct host allocates socket_fd = Returns tt c ->
  hasError c = false ->
  request_data_ c = Some (holding data) ->
  fits host data = true ->
  exists kvs : SimpleSocketContent,
    data = body host kvs
    /\ request_data_length_ c = Some (total_length kvs)
    /\ total_length kvs < kMaxRequestDataLength
    /\ firstn (Z.to_nat (8 + total_length kvs)) (readable (incoming socket_fd))
       = frame host kvs
    /\ getRequest c = set_fields kvs empty_content
    /\ (NoDup (map fst kvs) -> getRequest c = kvs).
Proof.
  intros E Herr Hblock Hfits. rewrite construct_unfold in E. revert E.
  destruct (receiveRequest_cases host allocates (fresh socket_fd)) as
    [rest Hc|rest n Hc Hn Hc'|rest n Hc Hn Hc' Hc''
    |rest n data' Hc Hn Hc' Hc'' Hd]; intros E;
    cbn [fresh socket_fd_] in *.
  1-3: injection E as <-; discriminate.
  set (stream := readable (incoming socket_fd)) in *.
  assert (Hk : kMaxRequestDataLength < 2 ^ 62) by reflexivity.
  pose proof (unwire64_range host (firstn 8 stream)) as Hr.
  rewrite <- Hn in Hr.
  assert (Hlen : len data' = n).
  { rewrite Hd. apply firstn_len. change 8%nat with (Z.to_nat 8).
    rewrite skipn_len by lia. lia. }
  apply (caught_or_passed _ (fun e => set_error_message_ (Some (what e))))
    in E.
  destruct E as [[e [s [_ ->]]]|E]; [discriminate|].
  assert (Hsame : data' = data).
  { apply decode_returns in E. destruct E as [kvs ->].
    simpl_connection. congruence. }
  rewrite Hsame in *. clear Hsame data' Hblock.
  rewrite decode_request_data_spec in E.
  unfold fits, announced_end in Hfits.
  destruct (announced_sizes host data) as [sizes|] eqn:Es; [|discriminate].
  apply Z.leb_le in Hfits.
  pose proof (announced_sizes_ok host data sizes Es) as Hok.
  pose proof (len_nonneg sizes) as Hl.
  destruct (cut_fields_inside allocates data sizes (8 + 16 * len sizes) Hok)
    as (kvs & Ec & Hsz & Hpay); [lia|lia|lia|].
  rewrite Ec in E.
  destruct (Z.eqb_spec n (8 + 16 * len sizes + sum_sizes sizes)) as [Hend|];
    [|discriminate].
  injection E as <-.
  destruct (decoded_block_is_a_body host data sizes kvs Es Hsz Hpay
              ltac:(lia)) as [Hbody Htotal].
  exists kvs. simpl_connection.
  split; [exact Hbody|]. split; [f_equal; lia|]. split; [lia|].
  split; [|split; [reflexivity|]].
  - rewrite <- Htotal, Hlen. unfold frame.
    pose proof (chunk_split stream 0 8 n ltac:(lia) ltac:(lia) ltac:(lia))
      as C.
    change (0 + 8) with 8 in C. change (Z.to_nat 0) with 0%nat in C.
    change (Z.to_nat 8) with 8%nat in C.
    change (skipn 0 stream) with stream in C.
    rewrite C, <- Hd, <- Hbody. f_equal.
    rewrite <- Htotal, Hlen, Hn. symmetry. apply wire64_unwire64.
    apply (chunk_length stream 0 8); lia.
  - intros Hnd. apply (set_fields_fresh kvs empty_content). exact Hnd.
Qed.

Lemma accepted_request_is_an_encoding_witness :
  exists c kvs,
    construct LittleEndian plenty
      (idle_socket [Segment (frame LittleEndian example_content)])
    = Returns tt c
    /\ hasError c = false
    /\ request_data_ c = Some (holding (body LittleEndian kvs))
    /\ fits LittleEndian (body LittleEndian kvs) = true
    /\ getRequest c = set_fields kvs empty_content.
Proof.
  destruct (construct LittleEndian plenty
              (idle_socket [Segment (frame LittleEndian example_content)]))
    as [[] c|e c| |] eqn:E;
    [|vm_compute in E; discriminate..].
  assert (Herr : hasError c = false)
    by (vm_compute in E; injection E as <-; reflexivity).
  assert (Hblock : request_data_ c
                   = Some (holding (body LittleEndian example_content)))
    by (vm_compute in E; injection E as <-; reflexivity).
  assert (Hfits : fits LittleEndian (body LittleEndian example_content)
                  = true) by (vm_compute; reflexivity).
  destruct (accepted_request_is_an_encoding LittleEndian plenty _ c _ E Herr
              Hblock Hfits) as [kvs [H1 [_ [_ [_ [H2 _]]]]]].
  exists c, kvs. rewrite <- H1. auto.
Defined.

(** ** Sending *)

Lemma Htonll_uint64 (host : endianness) (x : Z) :
  Htonll host (uint64 x) = Htonll host x.
Proof.
  assert (Hsplit : uint64 x = x mod 2 ^ 32 + 2 ^ 32 * ((x / 2 ^ 32) mod 2 ^ 32)).
  { unfold uint64. change (2 ^ 64) with (2 ^ 32 * 2 ^ 32).
    apply Z.rem_mul_r; lia. }
  pose proof (Z.mod_pos_bound x (2 ^ 32) ltac:(lia)) as Hlo.
  pose proof (Z.mod_pos_bound (x / 2 ^ 32) (2 ^ 32) ltac:(lia)) as Hhi.
  unfold Htonll. rewrite !Z.shiftr_div_pow2 by lia.
  assert (H1 : uint32 (uint64 x) = uint32 x).
  { rewrite Hsplit. unfold uint32.
    rewrite (Z.mul_comm (2 ^ 32)), Z.mod_add by lia. apply Z.mod_mod. lia. }
  assert (H2 : uint32 (uint64 x / 2 ^ 32) = uint32 (x / 2 ^ 32)).
  { rewrite Hsplit. unfold uint32.
    rewrite (Z.mul_comm (2 ^ 32)), Z.div_add by lia.
    rewrite (Z.div_small (x mod 2 ^ 32)) by lia. cbn [Z.add].
    apply Z.mod_mod. lia. }
  now rewrite H1, H2.
Qed.

Lemma wire64_uint64 (host : endianness) (x : Z) :
  wire64 host (uint64 x) = wire64 host x.
Proof. unfold wire64. now rewrite Htonll_uint64. Qed.

Lemma frame_len (host : endianness) (r : SimpleSocketContent) :
  len (frame host r) = 8 + total_length r.
Proof. unfold frame. now rewrite len_app, wire64_len, body_len. Qed.

(** X10: for every Record, [sendResponse] returns having sent the
    Record's message and changed nothing else.  The message is 8 +
    total_length bytes long, and its length field announces total_length
    reduced to 64 bits; so a message announces its own length less 8
    whenever that fits the field. *)
Theorem sendResponse_sends_its_length (host : endianness)
  (response : SimpleSocketContent) (c : SimpleSocketConnection) :
  sendResponse host response c = Returns tt (send (frame host response) c)
  /\ len (frame host response) = 8 + total_length response
  /\ unwire64 host (firstn 8 (frame host response))
     = uint64 (total_length response)
  /\ skipn 8 (frame host response) = body host response
  /\ (total_length response < 2 ^ 64 ->
      len (frame host response)
      = 8 + unwire64 host (firstn 8 (frame host response))).
Proof.
  assert (Hsend : sendResponse host response c
                  = Returns tt (send (frame host response) c)).
  { unfold sendResponse.
    destruct (calculate_field_sizes (fields response) 0 [] [])
      as [t [E Ht]].
    match goal with
    | |- context [fold_left ?f ?l ?a] =>
        replace (fold_left f l a)
          with (t, [] ++ fields response, [] ++ sizes_of (fields response))
          by (symmetry; exact E)
    end.
    cbn [app]. clear E.
    set (fs := fields response) in *.
    assert (Htotal : uint64 (t + uint64 (8 * (1 + 2 * len fs)))
                     = uint64 (total_length response)).
    { rewrite uint64_add_r, <- uint64_add_l, Ht, uint64_add_l.
      apply (f_equal uint64). unfold total_length. fold fs. lia. }
    rewrite Htotal.
    unfold bind at 1. rewrite writeUInt64_sends, wire64_uint64.
    unfold bind at 1. rewrite writeUInt64_sends.
    unfold bind at 1. rewrite write_size_table.
    unfold for_lt.
    replace (Z.to_nat (len fs)) with (length fs) by (unfold len; lia).
    rewrite (write_payload fs fs [] _ eq_refl).
    rewrite !send_send. unfold frame, body. fold fs.
    rewrite <- ?app_assoc. reflexivity. }
  assert (Hfield : unwire64 host (firstn 8 (frame host response))
                   = uint64 (total_length response)).
  { unfold frame.
    destruct (readable_header host (total_length response)
                (body host response)) as [-> _].
    apply unwire64_wire64. }
  split; [exact Hsend|]. split; [apply frame_len|].
  split; [exact Hfield|]. split.
  - unfold frame.
    now destruct (readable_header host (total_length response)
                    (body host response)) as [_ ->].
  - intros Hfit. rewrite Hfield, frame_len, uint64_small; [reflexivity|].
    pose proof (sum_sizes_nonneg (fields response)).
    pose proof (len_nonneg (fields response)).
    unfold total_length in *. lia.
Qed.




(** ** The announced length against the message *)

Lemma firstn_app_whole {A : Type} (n : Z) (l1 l2 : list A) :
  len l1 <= n ->
  firstn (Z.to_nat n) (l1 ++ l2) = l1 ++ firstn (Z.to_nat (n - len l1)) l2.
Proof.
  unfold len. intros H. rewrite firstn_app, firstn_all2 by lia.
  f_equal. f_equal. lia.
Qed.

Lemma firstn_app_part {A : Type} (n : Z) (l1 l2 : list A) :
  n <= len l1 ->
  firstn (Z.to_nat n) (l1 ++ l2) = firstn (Z.to_nat n) l1.
Proof.
  unfold len. intros H. rewrite firstn_app.
  replace (Z.to_nat n - length l1)%nat with 0%nat by lia.
  cbn [firstn]. apply app_nil_r.
Qed.

(** The decoding block on a Record's body followed by [junk]. *)
Lemma decode_body_and_junk (host : endianness) (allocates : Z -> bool)
  (r : SimpleSocketContent) (junk : bytestring) (n : Z)
  (c : SimpleSocketConnection) :
  total_length r < kMaxRequestDataLength ->
  decode_request_data host allocates (body host r ++ junk) n c
  = if n =? total_length r
    then Returns tt (set_request_ (set_fields (fields r) (request_ c)) c)
    else Aborts.
Proof.
  intros Hfit. rewrite decode_request_data_spec.
  assert (Hk : kMaxRequestDataLength < 2 ^ 62) by reflexivity.
  set (fs := fields r) in *.
  pose proof (sum_sizes_nonneg fs) as Hs. pose proof (len_nonneg fs) as Hl.
  assert (Htl : total_length r = 8 + 16 * len fs + sum_sizes (sizes_of fs))
    by reflexivity.
  assert (Hok : Forall size_ok (sizes_of fs)) by (apply sizes_of_ok; lia).
  unfold body. fold fs. rewrite <- !app_assoc.
  rewrite <- (len_sizes_of fs) at 1.
  rewrite announced_sizes_sent by (rewrite ?len_sizes_of; assumption || lia).
  rewrite len_sizes_of.
  replace (8 + 16 * len fs)
    with (len (wire64 host (len fs) ++ size_table host (sizes_of fs)))
    by (rewrite len_app, wire64_len, size_table_len, len_sizes_of; lia).
  rewrite (app_assoc (wire64 host (len fs))).
  rewrite cut_fields_payload
    by (rewrite len_app, wire64_len, size_table_len, len_sizes_of; lia).
  rewrite len_app, wire64_len, size_table_len, len_sizes_of, <- Htl.
  reflexivity.
Qed.

(** The size table that a prefix of a Record's body announces: none when
    the table is cut, the Record's when it is whole. *)
Lemma cut_body_announced (host : endianness) (r : SimpleSocketContent)
  (n : Z) :
  total_length r < 2 ^ 62 -> 0 <= n <= total_length r ->
  announced_sizes host (firstn (Z.to_nat n) (body host r))
  = if 8 + 16 * len (fields r) <=? n
    then Some (sizes_of (fields r))
    else None.
Proof.
  intros Hfit Hn. set (fs := fields r).
  pose proof (sum_sizes_nonneg fs) as Hs. pose proof (len_nonneg fs) as Hl.
  assert (Htl : total_length r = 8 + 16 * len fs + sum_sizes (sizes_of fs))
    by reflexivity.
  assert (Hok : Forall size_ok (sizes_of fs)) by (apply sizes_of_ok; lia).
  assert (Hlen : len (firstn (Z.to_nat n) (body host r)) = n)
    by (apply firstn_len; rewrite body_len; lia).
  destruct (Z.leb_spec (8 + 16 * len fs) n) as [Ht|Ht].
  - assert (Hcut : firstn (Z.to_nat n) (body host r)
                   = wire64 host (len (sizes_of fs))
                     ++ size_table host (sizes_of fs)
                     ++ firstn (Z.to_nat (n - 8 - 16 * len fs)) (payload fs)).
    { unfold body. fold fs. rewrite len_sizes_of.
      rewrite firstn_app_whole by (rewrite wire64_len; lia).
      rewrite wire64_len.
      rewrite firstn_app_whole
        by (rewrite size_table_len, len_sizes_of; lia).
      rewrite size_table_len, len_sizes_of. reflexivity. }
    rewrite Hcut. apply announced_sizes_sent; rewrite ?len_sizes_of;
      assumption || lia.
  - unfold announced_sizes, announced_fields. rewrite Hlen.
    destruct (Z.leb_spec 8 n) as [H8|H8]; [|reflexivity].
    assert (Hnf : uint64_at host (firstn (Z.to_nat n) (body host r)) 0
                  = len fs).
    { unfold body. fold fs.
      rewrite firstn_app_whole by (rewrite wire64_len; lia).
      pose proof (uint64_at_app host []
                    (firstn (Z.to_nat (n - len (wire64 host (len fs))))
                       (size_table host (sizes_of fs) ++ payload fs))
                    (len fs)) as E.
      cbn [app] in E. change (len (@nil byte)) with 0 in E. rewrite E.
      apply uint64_small. lia. }
    rewrite Hnf.
    destruct (Z.leb_spec (8 + 16 * len fs) n); [lia|reflexivity].
Qed.

(** The keys are inside a block that holds all but a part of the last
    value. *)
Lemma keys_inside_all_but_last_value (allocates : Z -> bool)
  (buf : bytestring) (sizes : list (Z * Z)) (ks vs : Z) :
  forall p,
    Forall size_ok sizes -> 0 <= ks -> 0 <= vs -> 0 <= p ->
    p + sum_sizes sizes + ks <= len buf ->
    p + sum_sizes sizes + ks + vs < kMaxRequestDataLength ->
    keys_inside allocates buf p (sizes ++ [(ks, vs)]) = true.
Proof.
  assert (Hmax : kMaxRequestDataLength < 2 ^ 62) by reflexivity.
  induction sizes as [|[ks' vs'] sizes IH]; intros p Hok Hks Hvs Hp Hin Hsum.
  - cbn [app keys_inside]. cbn [sum_sizes fold_right] in Hin, Hsum.
    unfold sum_sizes in Hin, Hsum. cbn [map fold_right] in Hin, Hsum.
    rewrite string_accepted by lia.
    destruct (Z.leb_spec (p + ks) (len buf)); [|lia].
    now rewrite orb_true_r.
  - inversion Hok as [|? ? [Hk Hv] Hok']; subst. cbn [fst snd] in Hk, Hv.
    pose proof (sum_sizes_ok_nonneg sizes Hok') as Hs.
    rewrite sum_sizes_cons in Hin, Hsum. cbn [fst snd] in Hin, Hsum.
    cbn [app keys_inside]. rewrite string_accepted by lia.
    destruct (Z.leb_spec (p + ks') (len buf)); [|lia].
    rewrite orb_true_r. cbn [andb].
    rewrite uint64_small by lia.
    apply IH; try assumption; lia.
Qed.

Lemma sizes_of_keys_short (allocates : Z -> bool)
  (fs : list (list byte * list byte)) :
  sum_sizes (sizes_of fs) < kMaxRequestDataLength ->
  Forall (fun s => string_refused allocates (fst s) = None) (sizes_of fs).
Proof.
  induction fs as [|[k v] fs IH]; intros Hsum; [constructor|].
  cbn [sizes_of map] in *. rewrite sum_sizes_cons in Hsum.
  cbn [fst snd] in Hsum. fold (sizes_of fs) in *.
  pose proof (sum_sizes_nonneg fs). pose proof (len_nonneg k).
  pose proof (len_nonneg v).
  constructor; [cbn [fst]; apply string_accepted; lia|apply IH; lia].
Qed.

(** X12: the length field must be exact.  When a Record's body follows a
    length field that announces [n] bytes, the constructor returns without
    an error if [n] is the Record's total length; if [n] is larger, so
    that later bytes are taken into the block, the closing check fails and
    the process is terminated; if [n] is smaller, the constructor does not
    return: the decoder reads outside the block when the size table is
    cut, and otherwise reads a key outside the block or fails its closing
    check, which it does when only the last value is cut. *)
Theorem announced_length_must_be_exact (host : endianness)
  (allocates : Z -> bool) (r : SimpleSocketContent) (n : Z) (socket_fd : socket)
  (extra : bytestring) :
  total_length r < kMaxRequestDataLength ->
  0 <= n < kMaxRequestDataLength ->
  n <= total_length r + len extra ->
  readable (incoming socket_fd) = wire64 host n ++ body host r ++ extra ->
  (n = total_length r ->
   exists c,
     construct host allocates socket_fd = Returns tt c /\ hasError c = false)
  /\ (total_length r < n -> construct host allocates socket_fd = Aborts)
  /\ (n < total_length r ->
      (construct host allocates socket_fd = Aborts
       \/ construct host allocates socket_fd = OutOfBounds)
      /\ (n < 8 + 16 * len (fields r) ->
          construct host allocates socket_fd = OutOfBounds)
      /\ (forall fs k v,
            fields r = fs ++ [(k, v)] ->
            total_length r - len v <= n ->
            construct host allocates socket_fd = Aborts)).
Proof.
  intros Hmax Hn Havail Hstream.
  assert (Hk : kMaxRequestDataLength < 2 ^ 62) by reflexivity.
  set (data := firstn (Z.to_nat n) (body host r ++ extra)).
  assert (Hlen : len data = n)
    by (apply firstn_len; rewrite len_app, body_len; lia).
  assert (Hsplit : body host r ++ extra
                   = data ++ skipn (Z.to_nat n) (body host r ++ extra))
    by (symmetry; apply firstn_skipn).
  rewrite Hsplit, <- Hlen in Hstream.
  destruct (construct_delivered host allocates socket_fd data _ Hstream
              ltac:(lia)) as [rest E].
  rewrite E, Hlen. clear E Hstream Hsplit.
  destruct (Z_lt_le_dec n (total_length r)) as [Hlt|Hge].
  - split; [lia|]. split; [lia|]. intros _.
    assert (Hdata : data = firstn (Z.to_nat n) (body host r))
      by (unfold data; apply firstn_app_part; rewrite body_len; lia).
    pose proof (sum_sizes_nonneg (fields r)) as Hs.
    pose proof (len_nonneg (fields r)) as Hl.
    assert (Htl : total_length r
                  = 8 + 16 * len (fields r) + sum_sizes (sizes_of (fields r)))
      by reflexivity.
    rewrite decode_request_data_spec, Hdata, cut_body_announced by lia.
    rewrite <- Hdata.
    destruct (Z.leb_spec (8 + 16 * len (fields r)) n) as [Ht|Ht].
    2:{ split; [now right|]. split; [reflexivity|].
        intros fs k v Hfs Hv. exfalso.
        assert (Hsum : sum_sizes (sizes_of (fields r))
                       = sum_sizes (sizes_of fs) + len k + len v).
        { rewrite Hfs. unfold sizes_of. rewrite map_app, sum_sizes_app.
          cbn [map fst snd]. rewrite sum_sizes_cons. cbn [fst snd].
          change (sum_sizes []) with 0. lia. }
        pose proof (len_nonneg k). pose proof (sum_sizes_nonneg fs). lia. }
    rewrite len_sizes_of.
    assert (Hok : Forall size_ok (sizes_of (fields r)))
      by (apply sizes_of_ok; lia).
    split; [|split; [lia|]].
    + destruct (keys_inside allocates data (8 + 16 * len (fields r))
                  (sizes_of (fields r))) eqn:Hkeys.
      * left.
        destruct (cut_fields_keys_inside allocates data (sizes_of (fields r))
                    (8 + 16 * len (fields r)) Hok) as [kvs Ec];
          [lia|exact Hkeys|].
        rewrite Ec, <- Htl, uint64_small by lia.
        now replace (n =? total_length r) with false
          by (symmetry; apply Z.eqb_neq; lia).
      * right.
        rewrite keys_inside_or_outside in Hkeys
          by (apply sizes_of_keys_short; lia).
        apply negb_false_iff in Hkeys.
        apply (cut_fields_key_outside allocates data _ _ Hok) in Hkeys; [|lia].
        now rewrite Hkeys.
    + intros fs k v Hfs Hv.
      assert (Hsz : sizes_of (fields r) = sizes_of fs ++ [(len k, len v)])
        by (rewrite Hfs; unfold sizes_of; now rewrite map_app).
      assert (Hsum : sum_sizes (sizes_of (fields r))
                     = sum_sizes (sizes_of fs) + len k + len v).
      { rewrite Hsz, sum_sizes_app, sum_sizes_cons. cbn [fst snd].
        change (sum_sizes []) with 0. lia. }
      pose proof (len_nonneg k). pose proof (len_nonneg v).
      pose proof (sum_sizes_nonneg fs).
      assert (Hkeys : keys_inside allocates data (8 + 16 * len (fields r))
                        (sizes_of (fields r)) = true).
      { rewrite Hsz. apply keys_inside_all_but_last_value; try lia.
        apply sizes_of_ok. lia. }
      destruct (cut_fields_keys_inside allocates data (sizes_of (fields r))
                  (8 + 16 * len (fields r)) Hok) as [kvs Ec];
        [lia|exact Hkeys|].
      rewrite Ec, <- Htl, uint64_small by lia.
      now replace (n =? total_length r) with false
        by (symmetry; apply Z.eqb_neq; lia).
  - assert (Hdata : data = body host r
                           ++ firstn (Z.to_nat (n - total_length r)) extra)
      by (unfold data; rewrite firstn_app_whole, body_len
            by (rewrite body_len; lia); reflexivity).
    rewrite Hdata, decode_body_and_junk by lia.
    split; [|split].
    + intros ->. rewrite Z.eqb_refl. eexists. split; reflexivity.
    + intros Hgt. now replace (n =? total_length r) with false
        by (symmetry; apply Z.eqb_neq; lia).
    + lia.
Qed.

Lemma announced_length_must_be_exact_witness :
  total_length example_content < kMaxRequestDataLength
  /\ 0 <= 50 < kMaxRequestDataLength
  /\ 50 <= total_length example_content + len [x00; x01; x02]
  /\ construct LittleEndian plenty
       (idle_socket [Segment (wire64 LittleEndian 50
                              ++ body LittleEndian example_content
                              ++ [x00; x01; x02])])
     = Aborts.
Proof.
  assert (H1 : total_length example_content < kMaxRequestDataLength)
    by reflexivity.
  assert (H2 : 0 <= 50 < kMaxRequestDataLength) by (split; vm_compute; congruence).
  assert (H3 : 50 <= total_length example_content + len [x00; x01; x02])
    by (vm_compute; discriminate).
  repeat (split; [assumption|]).
  refine (proj1 (proj2 (announced_length_must_be_exact LittleEndian plenty
                          example_content 50
                          (idle_socket [Segment (wire64 LittleEndian 50
                              ++ body LittleEndian example_content
                              ++ [x00; x01; x02])])
                          [x00; x01; x02] H1 H2 H3 _)) _).
  - vm_compute. reflexivity.
  - vm_compute. reflexivity.
Defined.

(** ** Rejected requests *)

(** X13: a request that announces a length at or above the maximum is
    rejected after the length field alone has been read: the constructor
    returns with the error stored, the announced length kept in
    [request_data_length_], and every byte after the length field still
    readable on the socket. *)
Theorem oversized_request_reads_only_the_length (host : endianness)
  (allocates : Z -> bool) (socket_fd : socket) :
  8 <= len (readable (incoming socket_fd)) ->
  kMaxRequestDataLength
  <= unwire64 host (firstn 8 (readable (incoming socket_fd))) ->
  exists c,
    construct host allocates socket_fd = Returns tt c
    /\ hasError c = true
    /\ request_data_length_ c
       = Some (unwire64 host (firstn 8 (readable (incoming socket_fd))))
    /\ readable (incoming (socket_fd_ c))
       = skipn 8 (readable (incoming socket_fd)).
Proof.
  intros H8 Hover.
  destruct (receiveUInt64_enough host (fresh socket_fd) H8) as [rest [E Hr]].
  cbn [fresh socket_fd_] in E, Hr.
  rewrite construct_unfold. unfold receiveRequest.
  unfold bind at 1. rewrite E.
  unfold bind at 1. unfold modify at 1. unfold bind at 1.
  destruct (Z.leb_spec kMaxRequestDataLength
              (unwire64 host (firstn 8 (readable (incoming socket_fd)))));
    [|lia].
  unfold throw. eexists. split; [reflexivity|].
  simpl_connection. auto.
Qed.

Lemma oversized_request_reads_only_the_length_witness :
  exists c,
    construct LittleEndian plenty
      (idle_socket [Segment (be_bytes 8 (2 ^ 64 - 1)); Segment [x2a; x2b]])
    = Returns tt c
    /\ hasError c = true
    /\ readable (incoming (socket_fd_ c)) = [x2a; x2b].
Proof.
  destruct (oversized_request_reads_only_the_length LittleEndian plenty
              (idle_socket [Segment (be_bytes 8 (2 ^ 64 - 1));
                            Segment [x2a; x2b]]))
    as [c [E [Herr [_ Hr]]]].
  - vm_compute. discriminate.
  - vm_compute. discriminate.
  - exists c. split; [exact E|]. split; [exact Herr|]. exact Hr.
Defined.
